(** * Document pipeline: segmentation, embedding tiers and vector memory

  A shallow embedding of [services/data_ingestion.py]
  ([RecursiveCharacterTextSplitter]) and [services/embedding_qdrant.py]
  ([GeminiEmbedder], [VectorMemory]), together with the result shaping
  of [api/routes_search.py].

  Conventions.
  - A Python [str] is a list of characters; a character is a code point
    below 256, carried by [ascii].
  - A Python [int] is a [Z]; indices follow Python's rules for negative
    and out-of-range values.
  - A [while] loop is run with a bound on the number of iterations; the
    result is [None] when the bound is reached before the loop exits. *)

From Stdlib Require Import ZArith Lia String Ascii QArith.
From stdpp Require Import base option list gmap strings.

Local Open Scope Z_scope.

(** ** Python string primitives *)

Module PyStr.

Definition str := list ascii.

Definition of_string (s : string) : str := list_ascii_of_string s.

Definition len (s : str) : Z := Z.of_nat (length s).

(** Index adjustment of a slice bound: a negative bound counts from the
    end, and the result is clipped to [0, len]. *)
Definition adjust (n i : Z) : Z :=
  if i <? 0 then Z.max (i + n) 0 else Z.min i n.

(** [s[a:b]] *)
Definition slice (s : str) (a b : Z) : str :=
  let a' := adjust (len s) a in
  let b' := adjust (len s) b in
  take (Z.to_nat (b' - a')) (drop (Z.to_nat a') s).

(** Does [sub] occur in [s] at offset [pos]? *)
Definition occurs_at (s sub : str) (pos : nat) : bool :=
  bool_decide (take (length sub) (drop pos s) = sub).

(** Highest [a + k] with [k < n] at which [sub] occurs, or [-1]. *)
Fixpoint rfind_below (s sub : str) (a : nat) (n : nat) : Z :=
  match n with
  | O => -1
  | S k => if occurs_at s sub (a + k) then Z.of_nat (a + k)
           else rfind_below s sub a k
  end.

(** [s.rfind(sub, a, b)]: the highest index [pos] with
    [a <= pos], [pos + len(sub) <= b] and [s[pos:pos+len(sub)] == sub],
    or [-1]. The bounds are adjusted as for a slice, except that the
    lower one is not clipped to the length. *)
Definition rfind (s sub : str) (a b : Z) : Z :=
  let b' := adjust (len s) b in
  let a' := if a <? 0 then Z.max (a + len s) 0 else a in
  rfind_below s sub (Z.to_nat a') (Z.to_nat (b' - len sub - a' + 1)).

(** [c.isspace()] for a code point below 256. *)
Definition isspace (c : ascii) : bool :=
  let n := nat_of_ascii c in
  ((9 <=? n) && (n <=? 13) || (28 <=? n) && (n <=? 32)
   || (n =? 133) || (n =? 160))%nat.

Fixpoint lstrip (s : str) : str :=
  match s with
  | c :: s' => if isspace c then lstrip s' else s
  | [] => []
  end.

Definition rstrip (s : str) : str := rev (lstrip (rev s)).

(** [s.strip()] *)
Definition strip (s : str) : str := rstrip (lstrip s).

(** Truth value of a string: non-empty. *)
Definition truthy (s : str) : bool :=
  match s with [] => false | _ => true end.

End PyStr.

Import PyStr.

(** ** RecursiveCharacterTextSplitter *)

Module Splitter.

Record RecursiveCharacterTextSplitter := mkSplitter {
  chunk_size : Z;
  chunk_overlap : Z;
  separators : list str
}.

Definition default_separators : list str :=
  map of_string
    [String "010" (String "010" EmptyString); String "010" EmptyString;
     ". "; "! "; "? "; " "; ""]%string.

(** [__init__]: stores its arguments; [separators] falls back to the
    default list when it is [None] or empty. *)
Definition init (chunk_size chunk_overlap : Z)
    (separators : option (list str)) : RecursiveCharacterTextSplitter :=
  mkSplitter chunk_size chunk_overlap
    (match separators with
     | Some (s :: l) => s :: l
     | _ => default_separators
     end).

(** The [for separator in self.separators] loop: the first non-empty
    separator whose rightmost occurrence in [start, end) lies strictly
    after [start] moves [end] just past it. *)
Fixpoint back_off (seps : list str) (text : str) (start end_ : Z) : Z :=
  match seps with
  | [] => end_
  | separator :: rest =>
      if truthy separator then
        let pos := rfind text separator start end_ in
        if negb (pos =? -1) && (pos >? start)
        then pos + len separator
        else back_off rest text start end_
      else back_off rest text start end_
  end.

(** The end position chosen in one iteration. *)
Definition cut (self : RecursiveCharacterTextSplitter) (text : str)
    (start : Z) : Z :=
  let end_ := Z.min (start + chunk_size self) (len text) in
  if end_ <? len text then back_off (separators self) text start end_
  else end_.

Definition emit (text : str) (start end_ : Z) (chunks : list str)
    : list str :=
  let chunk := strip (slice text start end_) in
  if truthy chunk then chunks ++ [chunk] else chunks.

Definition next_start (self : RecursiveCharacterTextSplitter)
    (end_ : Z) : Z :=
  let start := end_ - chunk_overlap self in
  if start <? 0 then 0 else start.

(** The [while start < len(text)] loop, at most [fuel] iterations. *)
Fixpoint loop (fuel : nat) (self : RecursiveCharacterTextSplitter)
    (text : str) (start : Z) (chunks : list str) : option (list str) :=
  match fuel with
  | O => None
  | S fuel' =>
      if start <? len text then
        let end_ := cut self text start in
        let chunks' := emit text start end_ chunks in
        let start' := next_start self end_ in
        if end_ >=? len text then Some chunks'
        else loop fuel' self text start' chunks'
      else Some chunks
  end.

Definition split_text (fuel : nat) (self : RecursiveCharacterTextSplitter)
    (text : str) : option (list str) :=
  if truthy text then loop fuel self text 0 [] else Some [].

(** The positions [(start, end)] visited by the same loop. *)
Fixpoint cuts (fuel : nat) (self : RecursiveCharacterTextSplitter)
    (text : str) (start : Z) : option (list (Z * Z)) :=
  match fuel with
  | O => None
  | S fuel' =>
      if start <? len text then
        let end_ := cut self text start in
        if end_ >=? len text then Some [(start, end_)]
        else option_map (cons (start, end_))
               (cuts fuel' self text (next_start self end_))
      else Some []
  end.

(** The windows of a whole call, with the early return on an empty
    text. *)
Definition split_cuts (fuel : nat) (self : RecursiveCharacterTextSplitter)
    (text : str) : option (list (Z * Z)) :=
  if truthy text then cuts fuel self text 0 else Some [].

(** The chunks emitted for a list of positions. *)
Definition chunks_of (text : str) (cs : list (Z * Z)) : list str :=
  fold_left (fun chunks c => emit text (fst c) (snd c) chunks) cs [].

(** *** Predicates used in the statements *)

(** What the loop may append: a trimmed, non-empty string within the
    size budget. *)
Definition fragment_ok (self : RecursiveCharacterTextSplitter)
    (c : str) : Prop :=
  strip c <> [] /\ strip c = c /\ len c <= chunk_size self.





(** No non-empty separator of the splitter occurs anywhere in the text. *)
Definition separator_free (self : RecursiveCharacterTextSplitter)
    (text : str) : Prop :=
  Forall (fun sep => truthy sep = true -> rfind text sep 0 (len text) = -1)
         (separators self).

(** [frag] is a run of consecutive characters of [text]. *)
Definition substring_of (text frag : str) : Prop :=
  exists pre post, text = pre ++ frag ++ post.

End Splitter.

Import Splitter.


(** ** Values, exceptions and effects *)

Module Py.

(** The values that appear in payloads and metadata. A float is carried
    by a rational: only the identity of a value matters below, never
    its arithmetic. *)
#[warnings="-register-all"]
Inductive pyval :=
  | VNone
  | VInt (n : Z)
  | VFloat (x : Q)
  | VStr (s : string)
  | VDict (d : gmap string pyval).

Abbreviation dict := (gmap string pyval).

Inductive exn :=
  | UnboundLocalError
  | AttributeError
  | ValueError
  | ConnectionError.

Inductive Result (A : Type) :=
  | Ok (a : A)
  | Raise (e : exn).
Arguments Ok {A} a.
Arguments Raise {A} e.

(** Computations that read and write a state and may raise. The state
    reached when an exception is raised is kept: an [except] block
    sees the mutations made before the failure. *)
Definition M (S A : Type) : Type := S -> Result A * S.

Definition ret {S A} (a : A) : M S A := fun s => (Ok a, s).

Definition raise {S A} (e : exn) : M S A := fun s => (Raise e, s).

Definition bind {S A B} (m : M S A) (k : A -> M S B) : M S B :=
  fun s =>
    match m s with
    | (Ok a, s') => k a s'
    | (Raise e, s') => (Raise e, s')
    end.

(** [try: m  except Exception: h] *)
Definition try_except {S A} (m : M S A) (h : M S A) : M S A :=
  fun s =>
    match m s with
    | (Ok a, s') => (Ok a, s')
    | (Raise _, s') => h s'
    end.

Definition get {S} : M S S := fun s => (Ok s, s).

Definition modify {S} (f : S -> S) : M S unit := fun s => (Ok tt, f s).

Notation "'do' x <- m ;; k" := (bind m (fun x => k))
  (at level 10, x name, m at level 99, k at level 200, only parsing).

(** A comprehension [[f(x) for x in l]] whose body has effects. *)
Fixpoint for_each {S A B} (f : A -> M S B) (l : list A) : M S (list B) :=
  match l with
  | [] => ret []
  | x :: l' => do y <- f x ;; do ys <- for_each f l' ;; ret (y :: ys)
  end.

(** [l[:k]] *)
Definition prefix {A} (l : list A) (k : Z) : list A :=
  take (Z.to_nat (adjust (Z.of_nat (length l)) k)) l.

(** [enumerate(l)] *)
Definition enumerate {A} (l : list A) : list (Z * A) :=
  zip (map Z.of_nat (seq 0 (length l))) l.

End Py.

Import Py.

(** ** The embedder *)

Module Embedder.

Definition vector := list Q.

(** The dimension written in the source: the [size] of the collection
    and the length the fallback tiers produce. *)
Definition DIM : nat := 512.

(** What the process sees of the outside: the two import flags set at
    module load, the environment variable, and the behaviour of the
    libraries called. [embed_content n text] is the answer to the n-th
    call of [genai.embed_content] in the process ([None]: it raises, or
    the answer has no ['embedding']); [fit_transform text] is
    [TfidfVectorizer(max_features=512, stop_words='english')
       .fit_transform([text]).toarray()[0]] ([None]: it raises);
    [random_stream] lists the samples of numpy's global generator in
    the order they are drawn. *)
Record Env := mkEnv {
  GEMINI_AVAILABLE : bool;
  SKLEARN_AVAILABLE : bool;
  GOOGLE_API_KEY : option string;
  configure_ok : string -> bool;
  embed_content : nat -> string -> option vector;
  fit_transform : string -> option vector;
  random_stream : nat -> Q
}.

(** The mutable part: how many provider calls were made and how many
    random samples were drawn. *)
Record World := mkWorld {
  api_calls : nat;
  rng_pos : nat
}.

Record GeminiEmbedder := mkEmbedder {
  api_key : option string;
  available : bool
}.

Definition str_truthy (s : option string) : bool :=
  match s with
  | Some (String _ _) => true
  | _ => false
  end.

(** [GeminiEmbedder.__init__] *)
Definition init (env : Env) (key : option string) : GeminiEmbedder :=
  let api_key := if str_truthy key then key else GOOGLE_API_KEY env in
  match api_key with
  | Some k =>
      if negb (str_truthy api_key) then mkEmbedder api_key false
      else if negb (GEMINI_AVAILABLE env) then mkEmbedder api_key false
      else mkEmbedder api_key (configure_ok env k)
  | None => mkEmbedder api_key false
  end.

(** [np.random.rand(n).tolist()] *)
Definition random_rand (env : Env) (n : nat) : M World vector :=
  fun w =>
    (Ok (map (random_stream env) (seq (rng_pos w) n)),
     mkWorld (api_calls w) (rng_pos w + n)).

(** [genai.embed_content(...)['embedding']] *)
Definition call_provider (env : Env) (text : string) : M World vector :=
  fun w =>
    let w' := mkWorld (S (api_calls w)) (rng_pos w) in
    match embed_content env (api_calls w) text with
    | Some v => (Ok v, w')
    | None => (Raise ConnectionError, w')
    end.

(** Lines 82-85: pad with zeros or keep the first 512 components. *)
Definition pad_or_truncate (embedding : vector) : vector :=
  if (length embedding <? 512)%nat
  then embedding ++ repeat 0%Q (512 - length embedding)
  else take 512 embedding.

(** [get_tfidf_embedding]. The statement [import numpy as np] inside
    the [try] block makes [np] a local name of the whole function, so
    the [np.random.rand(512)] of the first branch reads a local that is
    not bound yet and raises [UnboundLocalError]; in the [except]
    block [np] is bound, the import having run before the vectorizer
    is built. *)
Definition get_tfidf_embedding (env : Env) (self : GeminiEmbedder)
    (text : string) : M World vector :=
  if negb (SKLEARN_AVAILABLE env) then
    raise UnboundLocalError
  else
    try_except
      (match fit_transform env text with
       | Some embedding => ret (pad_or_truncate embedding)
       | None => raise ValueError
       end)
      (random_rand env 512).

(** [get_embedding] *)
Definition get_embedding (env : Env) (self : GeminiEmbedder)
    (text : string) : M World vector :=
  do r <- (if available self
          then try_except (do v <- call_provider env text ;; ret (Some v))
                          (ret None)
          else ret None) ;;
  match r with
  | Some v => ret v
  | None => get_tfidf_embedding env self text
  end.

End Embedder.

Import Embedder.

(** ** The Qdrant client

  An in-memory model of the client calls made by [VectorMemory]: named
  collections of points keyed by identifier, each collection with a
  fixed vector size. A client that is not [reachable] raises on every
  call. *)

Module Qdrant.

Record PointStruct := mkPoint {
  id : Z;
  vector : Embedder.vector;
  payload : dict
}.

Record ScoredPoint := mkScored {
  sp_id : Z;
  score : Q;
  sp_payload : dict
}.

Record Collection := mkCollection {
  size : nat;
  points : gmap Z PointStruct
}.

Record QdrantClient := mkClient {
  reachable : bool;
  similarity : Embedder.vector -> Embedder.vector -> Q;
  collections : gmap string Collection
}.

Definition with_collections (c : QdrantClient)
    (cols : gmap string Collection) : QdrantClient :=
  mkClient (reachable c) (similarity c) cols.

Definition get_collection (c : QdrantClient) (name : string)
    : Result Collection :=
  if negb (reachable c) then Raise ConnectionError
  else match collections c !! name with
       | Some col => Ok col
       | None => Raise ValueError
       end.

Definition create_collection (c : QdrantClient) (name : string)
    (size : nat) : Result QdrantClient :=
  if negb (reachable c) then Raise ConnectionError
  else match collections c !! name with
       | Some _ => Raise ValueError
       | None =>
           Ok (with_collections c
                 (<[name := mkCollection size ∅]> (collections c)))
       end.

(** Writing one point: it takes the place of the stored point of the
    same identifier. *)
Definition put (m : gmap Z PointStruct) (p : PointStruct)
    : gmap Z PointStruct :=
  <[id p := p]> m.

(** Points are written one after the other; a point whose vector has
    the wrong length stops the call with an exception, the points
    before it staying written. *)
Fixpoint upsert_points (col : Collection) (pts : list PointStruct)
    : Result unit * Collection :=
  match pts with
  | [] => (Ok tt, col)
  | p :: rest =>
      if (length (vector p) =? size col)%nat then
        upsert_points (mkCollection (size col) (put (points col) p)) rest
      else (Raise ValueError, col)
  end.

Definition upsert (name : string) (pts : list PointStruct)
    : M QdrantClient unit :=
  fun c =>
    if negb (reachable c) then (Raise ConnectionError, c)
    else match collections c !! name with
         | None => (Raise ValueError, c)
         | Some col =>
             let '(r, col') := upsert_points col pts in
             (r, with_collections c (<[name := col']> (collections c)))
         end.

(** Insertion into a list sorted by decreasing score; among equal
    scores the earlier element stays first. *)
Fixpoint insert_scored (x : ScoredPoint) (l : list ScoredPoint)
    : list ScoredPoint :=
  match l with
  | [] => [x]
  | y :: l' =>
      if Qle_bool (score x) (score y) then y :: insert_scored x l'
      else x :: l
  end.

Definition rank (l : list ScoredPoint) : list ScoredPoint :=
  fold_right insert_scored [] l.

Definition score_point (c : QdrantClient) (q : Embedder.vector)
    (kp : Z * PointStruct) : ScoredPoint :=
  mkScored (id (snd kp)) (similarity c q (vector (snd kp)))
           (payload (snd kp)).

(** The [limit] best points of the collection for the query vector. *)
Definition search (c : QdrantClient) (name : string)
    (query_vector : Embedder.vector) (limit : Z)
    : Result (list ScoredPoint) :=
  if negb (reachable c) then Raise ConnectionError
  else match collections c !! name with
       | None => Raise ValueError
       | Some col =>
           if (length query_vector =? size col)%nat then
             Ok (take (Z.to_nat limit)
                   (rank (map (score_point c query_vector)
                            (map_to_list (points col)))))
           else Raise ValueError
       end.

End Qdrant.

Import Qdrant.

(** ** VectorMemory *)

Module VectorMemory.

(** An instance is its attribute dictionary: the code itself asks
    [hasattr(self, '_fallback_storage')]. *)
Inductive attr :=
  | ANone
  | AStr (s : string)
  | AClient (c : QdrantClient)
  | AEmbedder (e : GeminiEmbedder)
  | AList (l : list dict).

Abbreviation Self := (gmap string attr).

Record State := mkState {
  self : Self;
  world : World
}.

Definition set_attr (name : string) (v : attr) : M State unit :=
  modify (fun st => mkState (<[name := v]> (self st)) (world st)).

Definition get_attr (name : string) : M State attr :=
  fun st =>
    match self st !! name with
    | Some v => (Ok v, st)
    | None => (Raise AttributeError, st)
    end.

Definition in_world {A} (m : M World A) : M State A :=
  fun st => let '(r, w) := m (world st) in (r, mkState (self st) w).

(** [VectorMemory.__init__], given the outcome of
    [QdrantClient(url=qdrant_url)] ([None]: the constructor raises). *)
Definition init (env : Env) (connect : string -> option QdrantClient)
    (qdrant_url collection_name : string) (api_key : option string)
    : Self :=
  let degraded (s : Self) : Self :=
    <["_fallback_storage" := AList []]> (<["client" := ANone]> s) in
  match connect qdrant_url with
  | None => degraded ∅
  | Some c =>
      let s : Self :=
        <["embedder" := AEmbedder (Embedder.init env api_key)]>
          (<["collection" := AStr collection_name]>
             (<["client" := AClient c]> ∅)) in
      match get_collection c collection_name with
      | Ok _ => s
      | Raise _ =>
          match create_collection c collection_name 512 with
          | Ok c' => <["client" := AClient c']> s
          | Raise _ => degraded s
          end
      end
  end.

(** [{"text": chunk, "metadata": {**metadata, "chunk_id": i}}] *)
Definition fallback_record (metadata : dict) (ic : Z * string) : dict :=
  <["metadata" := VDict (<["chunk_id" := VInt (fst ic)]> metadata)]>
    {["text" := VStr (snd ic)]}.

Definition fallback_records (chunks : list string) (metadata : dict)
    : list dict :=
  map (fallback_record metadata) (enumerate chunks).

(** [{"text": chunk, **metadata, "chunk_id": idx}]: a later key
    replaces an earlier one. *)
Definition point_payload (metadata : dict) (idx : Z) (chunk : string)
    : dict :=
  <["chunk_id" := VInt idx]> (metadata ∪ {["text" := VStr chunk]}).

(** The points built from [enumerate(zip(vectors, chunks))]. *)
Definition build_points (vectors : list Embedder.vector)
    (chunks : list string) (metadata : dict) : list PointStruct :=
  map (fun ivc => mkPoint (fst ivc) (fst (snd ivc))
                    (point_payload metadata (fst ivc) (snd (snd ivc))))
      (enumerate (zip vectors chunks)).

(** [self.embedder.get_embedding(text)] *)
Definition embed (env : Env) (text : string) : M State Embedder.vector :=
  do e <- get_attr "embedder" ;;
  match e with
  | AEmbedder emb => in_world (get_embedding env emb text)
  | _ => raise AttributeError
  end.

(** [self.client.upsert(collection_name=self.collection, points=points)] *)
Definition client_upsert (pts : list PointStruct) : M State unit :=
  do c <- get_attr "client" ;;
  do name <- get_attr "collection" ;;
  match c, name with
  | AClient cl, AStr n =>
      fun st =>
        let '(r, cl') := upsert n pts cl in
        (r, mkState (<["client" := AClient cl']> (self st)) (world st))
  | _, _ => raise AttributeError
  end.

(** The body of the [try] of [store_document]. *)
Definition store_document_try (env : Env) (chunks : list string)
    (metadata : dict) : M State unit :=
  do vectors <- for_each (embed env) chunks ;;
  client_upsert (build_points vectors chunks metadata).

(** The [for] loop appending the records to [self._fallback_storage]. *)
Definition append_fallback (chunks : list string) (metadata : dict)
    : M State unit :=
  match chunks with
  | [] => ret tt
  | _ =>
      do l <- get_attr "_fallback_storage" ;;
      match l with
      | AList recs =>
          set_attr "_fallback_storage"
            (AList (recs ++ fallback_records chunks metadata))
      | _ => raise AttributeError
      end
  end.

(** [store_document] *)
Definition store_document (env : Env) (chunks : list string)
    (metadata : dict) : M State unit :=
  do c <- get_attr "client" ;;
  match c with
  | ANone => append_fallback chunks metadata
  | _ =>
      try_except
        (store_document_try env chunks metadata)
        (do _ <- set_attr "_fallback_storage" (AList []) ;;
         append_fallback chunks metadata)
  end.

(** [self._fallback_storage[:top_k] if hasattr(...) else []] *)
Definition fallback_retrieve (top_k : Z) : M State (list dict) :=
  fun st =>
    match self st !! "_fallback_storage" with
    | Some (AList recs) => (Ok (prefix recs top_k), st)
    | Some _ => (Raise AttributeError, st)
    | None => (Ok [], st)
    end.

(** The body of the [try] of [retrieve]. *)
Definition retrieve_try (env : Env) (query : string) (top_k : Z)
    : M State (list dict) :=
  do embedded_query <- embed env query ;;
  do c <- get_attr "client" ;;
  do name <- get_attr "collection" ;;
  match c, name with
  | AClient cl, AStr n =>
      match search cl n embedded_query top_k with
      | Ok results => ret (map sp_payload results)
      | Raise e => raise e
      end
  | _, _ => raise AttributeError
  end.

(** [retrieve] *)
Definition retrieve (env : Env) (query : string) (top_k : Z)
    : M State (list dict) :=
  do c <- get_attr "client" ;;
  match c with
  | ANone => fallback_retrieve top_k
  | _ => try_except (retrieve_try env query top_k)
                    (fallback_retrieve top_k)
  end.

(** A call made on an instance. *)
Inductive call :=
  | StoreDocument (chunks : list string) (metadata : dict)
  | Retrieve (query : string) (top_k : Z).

(** Runs the calls in order; [false] as soon as one raises. *)
Fixpoint run_calls (env : Env) (cs : list call) (st : State) : bool * State :=
  match cs with
  | [] => (true, st)
  | StoreDocument chunks metadata :: rest =>
      match store_document env chunks metadata st with
      | (Ok _, st') => run_calls env rest st'
      | (Raise _, st') => (false, st')
      end
  | Retrieve query top_k :: rest =>
      match retrieve env query top_k st with
      | (Ok _, st') => run_calls env rest st'
      | (Raise _, st') => (false, st')
      end
  end.

(** *** Predicates used in the statements *)

(** The attributes the class ever assigns. *)
Definition known_attrs : list string :=
  ["client"; "collection"; "embedder"; "_fallback_storage"]%string.

(** The instance carries some attribute besides those four. *)
Definition has_status_field (s : Self) : Prop :=
  exists k, (k ∉ known_attrs) /\ is_Some (s !! k).

(** The state of an instance whose client is [None] and whose list
    holds [recs]. *)
Definition in_fallback (s : Self) (recs : list dict) : Prop :=
  s !! "client" = Some ANone /\
  s !! "_fallback_storage" = Some (AList recs) /\
  forall k, is_Some (s !! k) -> k ∈ known_attrs.

(** The records that the calls of a sequence append in fallback mode. *)
Definition stored_records (cs : list call) : list dict :=
  concat (map (fun c => match c with
                        | StoreDocument chunks metadata =>
                            fallback_records chunks metadata
                        | Retrieve _ _ => []
                        end) cs).



(** The chunks that the calls of a sequence store, in order. *)
Definition stored_chunks (cs : list call) : list string :=
  concat (map (fun c => match c with
                        | StoreDocument chunks _ => chunks
                        | Retrieve _ _ => []
                        end) cs).

(** The payloads [store_document] builds for the chunks of one call. *)
Definition chunk_payloads (chunks : list string) (metadata : dict)
    : list dict :=
  map (fun ic => point_payload metadata (fst ic) (snd ic)) (enumerate chunks).

(** The shapes of instance that [__init__] and the two methods produce:
    [client] is [None] and the list exists, or [client] is a client and
    the list, if it exists, is a list. *)
Definition well_formed (s : Self) : Prop :=
  (s !! "client" = Some ANone /\
   exists recs, s !! "_fallback_storage" = Some (AList recs)) \/
  (exists cl, s !! "client" = Some (AClient cl) /\
   (s !! "_fallback_storage" = None \/
    exists recs, s !! "_fallback_storage" = Some (AList recs))).

End VectorMemory.

(** ** The controller's use of retrieval *)

Module Controller.

(** How the first statements of [generate_exam] end. *)
Inductive outcome :=
  | Chunks (texts : list pyval)
  | NoRelevantContent
  | KeyError.

(** [[item['text'] for item in retrieved]]; [None] when a record has no
    such key. *)
Fixpoint texts (retrieved : list dict) : option (list pyval) :=
  match retrieved with
  | [] => Some []
  | item :: rest =>
      match item !! "text", texts rest with
      | Some t, Some ts => Some (t :: ts)
      | _, _ => None
      end
  end.

(** [generate_exam] up to the check of the retrieved chunks:
    [retrieve(query, top_k=50)], the comprehension, and the
    [ValueError] raised when it is empty. *)
Definition relevant_chunks (env : Env) (query : string)
    (st : VectorMemory.State)
    : Result outcome * VectorMemory.State :=
  match VectorMemory.retrieve env query 50 st with
  | (Ok retrieved, st') =>
      match texts retrieved with
      | Some [] => (Ok NoRelevantContent, st')
      | Some chunks => (Ok (Chunks chunks), st')
      | None => (Ok KeyError, st')
      end
  | (Raise e, st') => (Raise e, st')
  end.

End Controller.

(** ** Result shaping of the search route *)

Module RoutesSearch.



End RoutesSearch.

(** ** PDFIngestor *)

Module Ingestor.

(** *** The regular expressions of [clean_text], written out *)

(** [\d] on code points below 256. *)
Definition isdigit (c : ascii) : bool :=
  let n := nat_of_ascii c in ((48 <=? n) && (n <=? 57))%nat.

Fixpoint starts_with (p s : str) : bool :=
  match p, s with
  | [], _ => true
  | a :: p', b :: s' => Ascii.eqb a b && starts_with p' s'
  | _ :: _, [] => false
  end.

(** The number of leading characters that satisfy [f]. *)
Fixpoint span (f : ascii -> bool) (s : str) : nat :=
  match s with
  | c :: s' => if f c then S (span f s') else O
  | [] => O
  end.

Definition first_is (f : ascii -> bool) (s : str) : bool :=
  match s with
  | c :: _ => f c
  | [] => false
  end.

(** The length of a match of [--- Page \d+ ---] at the start of [s]. *)
Definition match_marker (s : str) : option nat :=
  if starts_with (of_string "--- Page ") s then
    let rest := drop 9 s in
    let d := span isdigit rest in
    if (1 <=? d)%nat && starts_with (of_string " ---") (drop d rest)
    then Some (9 + d + 4)%nat
    else None
  else None.

(** [re.sub(r'--- Page \d+ ---', '', text)]: matches are taken from left
    to right and do not overlap; [skip] counts the characters of the
    current match still to drop. *)
Fixpoint remove_markers_from (skip : nat) (s : str) : str :=
  match s with
  | [] => []
  | c :: s' =>
      match skip with
      | S k => remove_markers_from k s'
      | O =>
          match match_marker (c :: s') with
          | Some n => remove_markers_from (n - 1) s'
          | None => c :: remove_markers_from 0 s'
          end
      end
  end.

Definition remove_markers (s : str) : str := remove_markers_from 0 s.

(** [re.sub(r'\s+', ' ', text)]; [in_ws] tells that the previous
    character belonged to the run being replaced. *)
Fixpoint collapse_from (in_ws : bool) (s : str) : str :=
  match s with
  | [] => []
  | c :: s' =>
      if isspace c then
        if in_ws then collapse_from true s'
        else " "%char :: collapse_from true s'
      else c :: collapse_from false s'
  end.

Definition collapse_ws (s : str) : str := collapse_from false s.

(** [page\s*\d+] at the start of [s]. *)
Definition match_page (s : str) : bool :=
  starts_with (of_string "page") s &&
  first_is isdigit (drop (span isspace (drop 4 s)) (drop 4 s)).

(** [\d+\s*of\s*\d+] at the start of [s]. *)
Definition match_n_of_m (s : str) : bool :=
  first_is isdigit s &&
  (let r1 := drop (span isdigit s) s in
   let r2 := drop (span isspace r1) r1 in
   starts_with (of_string "of") r2 &&
   first_is isdigit (drop (span isspace (drop 2 r2)) (drop 2 r2))).

(** [re.search(r'page\s*\d+|\d+\s*of\s*\d+', s)] as a truth value. *)
Fixpoint search_page_indicator (s : str) : bool :=
  match s with
  | [] => false
  | _ :: s' => match_page s || match_n_of_m s || search_page_indicator s'
  end.

(** *** String methods *)

(** The cased code points below 256. *)
Definition isupper_char (c : ascii) : bool :=
  let n := nat_of_ascii c in
  ((65 <=? n) && (n <=? 90) || (192 <=? n) && (n <=? 214)
   || (216 <=? n) && (n <=? 222))%nat.

Definition islower_char (c : ascii) : bool :=
  let n := nat_of_ascii c in
  ((97 <=? n) && (n <=? 122) || (n =? 170) || (n =? 181) || (n =? 186)
   || (223 <=? n) && (n <=? 246) || (248 <=? n) && (n <=? 255))%nat.

(** [s.isupper()]: no lower-case character and at least one upper-case
    one. *)
Definition isupper (s : str) : bool :=
  forallb (fun c => negb (islower_char c)) s && existsb isupper_char s.

(** [s.lower()] *)
Definition lower (s : str) : str :=
  map (fun c => if isupper_char c then ascii_of_nat (nat_of_ascii c + 32)
                else c) s.

(** [s.split(sep)] for a separator of one character. *)
Fixpoint split_char (sep : ascii) (s : str) : list str :=
  match s with
  | [] => [[]]
  | c :: s' =>
      if Ascii.eqb c sep then [] :: split_char sep s'
      else match split_char sep s' with
           | l :: ls => (c :: l) :: ls
           | [] => [[c]]
           end
  end.

(** [sep.join(l)] *)
Fixpoint join (sep : str) (l : list str) : str :=
  match l with
  | [] => []
  | [x] => x
  | x :: rest => x ++ sep ++ join sep rest
  end.

(** *** The class *)

Record PDFIngestor := mkIngestor {
  splitter : RecursiveCharacterTextSplitter
}.

(** [__init__] *)
Definition init (chunk_size chunk_overlap : Z) : PDFIngestor :=
  mkIngestor
    (Splitter.init chunk_size chunk_overlap
       (Some (map of_string
                [String "010" (String "010" EmptyString);
                 String "010" EmptyString;
                 ". "; "! "; "? "; " "; ""]%string))).

(** The test applied to a stripped line that is not empty and was not
    seen before. *)
Definition kept (line : str) : bool :=
  negb (isupper line && (len line <? 100)) &&
  negb (search_page_indicator (lower line)).

(** The [for line in lines] loop of [clean_text]. *)
Fixpoint filter_lines (lines seen clean_lines : list str) : list str :=
  match lines with
  | [] => clean_lines
  | line :: rest =>
      let line := strip line in
      if truthy line && negb (bool_decide (line ∈ seen)) then
        if negb (isupper line && (len line <? 100)) then
          if negb (search_page_indicator (lower line)) then
            filter_lines rest (seen ++ [line]) (clean_lines ++ [line])
          else filter_lines rest seen clean_lines
        else filter_lines rest seen clean_lines
      else filter_lines rest seen clean_lines
  end.

(** [clean_text] *)
Definition clean_text (text : str) : str :=
  if negb (truthy text) then []
  else
    let text := remove_markers text in
    let text := collapse_ws text in
    let lines := split_char "010"%char text in
    join (of_string " ") (filter_lines lines [] []).

(** [ingest], given what the two extraction back ends return for the
    file: [extract_text] the text or [None], [ocr_extract] a string, empty
    when it fails. The result is [None] when the splitter has not
    returned within [fuel] iterations. *)
Definition ingest (fuel : nat) (self : PDFIngestor)
    (extracted : option str) (ocr : str) : option (Result (list str)) :=
  let text :=
    match extracted with
    | Some t => if negb (truthy t) || (len (strip t) <? 200) then ocr else t
    | None => ocr
    end in
  if negb (truthy text) || (len (strip text) <? 100) then
    Some (Raise ValueError)
  else
    let cleaned := clean_text text in
    if len cleaned <? 100 then Some (Raise ValueError)
    else option_map Ok (split_text fuel (splitter self) cleaned).

Definition newline : ascii := "010"%char.

(** [str(n)] for a natural number: its decimal digits. *)
Fixpoint decimal_digits (fuel n : nat) : str :=
  match fuel with
  | O => []
  | S fuel' =>
      if (n <? 10)%nat then [ascii_of_nat (48 + n)]
      else decimal_digits fuel' (n / 10) ++ [ascii_of_nat (48 + n mod 10)]
  end.

Definition decimal (n : nat) : str := decimal_digits (S n) n.

(** [f"\n--- Page {page_num + 1} ---\n{page_text}"] *)
Definition page_block (page_num : nat) (page_text : str) : str :=
  "010"%char :: of_string "--- Page " ++ decimal (page_num + 1)
    ++ of_string " ---" ++ "010"%char :: page_text.

(** The loop of [extract_text] over the pages; a page is what
    [page.get_text("text")] returns, or [None] when it raises. *)
Fixpoint extract_pages (page_num : nat) (pages : list (option str))
    (text : str) : str :=
  match pages with
  | [] => text
  | Some page_text :: rest =>
      if truthy (strip page_text)
      then extract_pages (S page_num) rest
             (text ++ page_block page_num page_text)
      else extract_pages (S page_num) rest text
  | None :: rest => extract_pages (S page_num) rest text
  end.

(** [extract_text]; the document is [None] when [fitz.open] raises. *)
Definition extract_text (doc : option (list (option str))) : option str :=
  match doc with
  | None => None
  | Some pages =>
      let text := extract_pages 0 pages [] in
      if truthy (strip text) then Some text else None
  end.

(** The texts of the pages that [extract_text] keeps: read without
    error and not blank. *)
Fixpoint kept_pages (pages : list (option str)) : list str :=
  match pages with
  | [] => []
  | Some page_text :: rest =>
      if truthy (strip page_text) then page_text :: kept_pages rest
      else kept_pages rest
  | None :: rest => kept_pages rest
  end.

(** The one line [clean_text] works on. *)
Definition cleaned_line (text : str) : str :=
  strip (collapse_ws (remove_markers text)).

End Ingestor.

(** ** The paragraph chunker of the indexing route *)

Module Chunker.

Definition nonspace_head (s : str) : bool :=
  match s with
  | c :: _ => negb (isspace c)
  | [] => false
  end.

(** [s.split()]: the maximal runs of characters other than whitespace. *)
Fixpoint words (s : str) : list str :=
  match s with
  | [] => []
  | c :: s' =>
      if isspace c then words s'
      else if nonspace_head s' then
        match words s' with
        | w :: ws => (c :: w) :: ws
        | [] => [[c]]
        end
      else [c] :: words s'
  end.

Definition push (c : ascii) (pieces : list str) : list str :=
  match pieces with
  | p :: ps => (c :: p) :: ps
  | [] => [[c]]
  end.

(** [text.split("\n\n")]: the pieces between successive occurrences of
    two line breaks, taken from left to right. *)
Fixpoint paragraphs (s : str) : list str :=
  match s with
  | [] => [[]]
  | c :: s' =>
      match s' with
      | d :: s'' =>
          if Ascii.eqb c "010" && Ascii.eqb d "010"
          then [] :: paragraphs s''
          else push c (paragraphs s')
      | [] => push c (paragraphs s')
      end
  end.

(** The elements of [range(i, n, step)] for a positive [step]; [fuel]
    bounds their number. *)
Fixpoint range_from (fuel : nat) (i n step : Z) : list Z :=
  match fuel with
  | O => []
  | S fuel' => if i <? n then i :: range_from fuel' (i + step) n step else []
  end.

(** [range(0, n, step)] for [n >= 0]: a [ValueError] for a step of
    zero, nothing for a negative step. *)
Definition range (n step : Z) : Result (list Z) :=
  if step =? 0 then Raise ValueError
  else if step <? 0 then Ok []
  else Ok (range_from (Z.to_nat n) 0 n step).

(** [words[i:i+max_tokens]] for [0 <= i] and [0 < max_tokens]. *)
Definition window (ws : list str) (i max_tokens : Z) : list str :=
  take (Z.to_nat max_tokens) (drop (Z.to_nat i) ws).

(** The inner loop for one paragraph. *)
Definition paragraph_chunks (max_tokens : Z) (para : str)
    : Result (list str) :=
  let ws := words para in
  match range (Z.of_nat (length ws)) max_tokens with
  | Ok indices =>
      Ok (map (fun i => Ingestor.join (of_string " ") (window ws i max_tokens))
              indices)
  | Raise e => Raise e
  end.

(** The outer loop. *)
Fixpoint chunk_paragraphs (max_tokens : Z) (paras : list str)
    (chunks : list str) : Result (list str) :=
  match paras with
  | [] => Ok chunks
  | para :: rest =>
      match paragraph_chunks max_tokens para with
      | Ok cs => chunk_paragraphs max_tokens rest (chunks ++ cs)
      | Raise e => Raise e
      end
  end.

(** [split_text_to_chunks] *)
Definition split_text_to_chunks (text : str) (max_tokens : Z)
    : Result (list str) :=
  chunk_paragraphs max_tokens (paragraphs text) [].

(** A word: not empty and free of whitespace. *)
Definition is_word (w : str) : Prop :=
  w <> [] /\ Forall (fun c => isspace c = false) w.

(** A chunk holds at least one word and at most [max_tokens]. *)
Definition chunk_ok (max_tokens : Z) (c : str) : Prop :=
  (1 <= length (words c))%nat /\ Z.of_nat (length (words c)) <= max_tokens.

End Chunker.

(** ** The indexing route: embedder, collection and indexer *)

Module Routes.

(** [chunker/embedder.py] and [qdrant/schema.py] *)
Definition EMBED_DIM : nat := 384.
Definition COLLECTION : string := "doc_chunks".
Definition VECTOR_SIZE : nat := 384.

(** [embed_chunks]: [DummyModel.encode] draws one random vector of
    [EMBED_DIM] components per chunk. *)
Definition embed_chunks {A} (env : Env) (chunks : list A)
    : M World (list Embedder.vector) :=
  for_each (fun _ => random_rand env EMBED_DIM) chunks.

(** [client.get_collections()], reduced to the names. *)
Definition get_collections (c : QdrantClient) : Result (list string) :=
  if negb (reachable c) then Raise ConnectionError
  else Ok (map fst (map_to_list (collections c))).

(** [client.recreate_collection]: the collection is dropped if it
    exists and created empty. *)
Definition recreate_collection (c : QdrantClient) (name : string)
    (size : nat) : Result QdrantClient :=
  if negb (reachable c) then Raise ConnectionError
  else Ok (with_collections c
             (<[name := mkCollection size ∅]> (collections c))).

(** [schema.create_collection] *)
Definition create_collection : M QdrantClient unit :=
  fun c =>
    match get_collections c with
    | Raise e => (Raise e, c)
    | Ok names =>
        if bool_decide (COLLECTION ∈ names) then (Ok tt, c)
        else match recreate_collection c COLLECTION VECTOR_SIZE with
             | Ok c' => (Ok tt, c')
             | Raise e => (Raise e, c)
             end
    end.

(** The state of the process: the client shared by the routes, the
    random generator, and the number of identifiers drawn so far from
    [uuid.uuid4()]. *)
Record State := mkState {
  client : QdrantClient;
  world : World;
  drawn : nat
}.

(** [{"doc_id": doc_id, "chunk_text": chunk, "chunk_id": i}] *)
Definition index_payload (doc_id : string) (i : Z) (chunk : string) : dict :=
  <["chunk_id" := VInt i]>
    (<["chunk_text" := VStr chunk]> {["doc_id" := VStr doc_id]}).

(** The points built by [upsert_chunks]; [uuid4 n] is the n-th
    identifier drawn in the process. *)
Definition index_points (uuid4 : nat -> Z) (first : nat)
    (chunks : list string) (embeddings : list Embedder.vector)
    (doc_id : string) : list PointStruct :=
  map (fun icv => mkPoint (uuid4 (first + Z.to_nat (fst icv))%nat)
                    (snd (snd icv))
                    (index_payload doc_id (fst icv) (fst (snd icv))))
      (enumerate (zip chunks embeddings)).

(** [indexer.upsert_chunks] *)
Definition upsert_chunks (uuid4 : nat -> Z) (chunks : list string)
    (embeddings : list Embedder.vector) (doc_id : string)
    : M State unit :=
  fun st =>
    let pts := index_points uuid4 (drawn st) chunks embeddings doc_id in
    let '(r, c') := upsert "doc_chunks" pts (client st) in
    (r, mkState c' (world st) (drawn st + length pts)).

(** [add_document] from the extracted text on: chunk, embed, make sure
    the collection exists, index, and report the number of chunks. *)
Definition add_document (uuid4 : nat -> Z) (env : Env) (text : str)
    (doc_id : string) : M State Z :=
  fun st =>
    match Chunker.split_text_to_chunks text 512 with
    | Raise e => (Raise e, st)
    | Ok chunks =>
        let chunks := map string_of_list_ascii chunks in
        match embed_chunks env chunks (world st) with
        | (Raise e, w) => (Raise e, mkState (client st) w (drawn st))
        | (Ok embeddings, w) =>
            match create_collection (client st) with
            | (Raise e, c) => (Raise e, mkState c w (drawn st))
            | (Ok _, c) =>
                match upsert_chunks uuid4 chunks embeddings doc_id
                        (mkState c w (drawn st)) with
                | (Raise e, st') => (Raise e, st')
                | (Ok _, st') => (Ok (Z.of_nat (length chunks)), st')
                end
            end
        end
    end.

(** The identifiers [first .. first + n - 1] of the stream are pairwise
    distinct and absent from the map. *)
Definition fresh_ids (uuid4 : nat -> Z) (first n : nat)
    (m : gmap Z PointStruct) : Prop :=
  (forall i j, (i < n)%nat -> (j < n)%nat ->
     uuid4 (first + i)%nat = uuid4 (first + j)%nat -> i = j) /\
  (forall i, (i < n)%nat -> m !! uuid4 (first + i)%nat = None).

End Routes.

(** ** Concrete inputs *)

Module Inputs.

(** The configuration of [PDFIngestor()]. *)
Definition default_splitter : RecursiveCharacterTextSplitter :=
  Splitter.init 512 64 None.

(** A short sentence followed by a sentence of 600 characters:
    ["Hi. word word word ... word "]. *)
Definition short_then_long : str :=
  of_string "Hi. " ++ concat (repeat (of_string "word ") 120).

Definition small_splitter : RecursiveCharacterTextSplitter :=
  Splitter.init 10 5 None.

Definition one_space_text : str := of_string "x yyyyyyyyyyyyyyyyyyyy".

Definition sample_text : str :=
  of_string "Hello world. This is a test of the splitter! Yes? ok".

(** Samples 1/2, 1/3, 1/4, ... standing for the generator's stream. *)
Definition sample_stream (n : nat) : Q := 1 # Pos.of_succ_nat (S n).

(** Neither optional package is installed and no key is set. *)
Definition env_plain : Env :=
  mkEnv false false None (fun _ => true) (fun _ _ => None) (fun _ => None)
        sample_stream.

Definition word_char (c : ascii) : bool :=
  let n := nat_of_ascii c in
  ((48 <=? n) && (n <=? 57) || (65 <=? n) && (n <=? 90) || (n =? 95)
   || (97 <=? n) && (n <=? 122))%nat.

(** Two adjacent word characters somewhere in the text. *)
Fixpoint has_token (s : string) : bool :=
  match s with
  | String a (String b _ as s') =>
      (word_char a && word_char b) || has_token s'
  | _ => false
  end.

(** The answers of the vectorizer used below. The default token pattern
    asks for two or more word characters: a text without two adjacent
    ones has an empty vocabulary and [fit_transform] raises
    [ValueError], which is the answer [None]. The answer [[1]] is the
    one for a text with a single distinct term. *)
Definition vectorizer_answers (text : string) : option Embedder.vector :=
  if has_token text then Some [1%Q] else None.

(** scikit-learn is installed, the provider is not. *)
Definition env_sklearn : Env :=
  mkEnv false true None (fun _ => true) (fun _ _ => None)
        vectorizer_answers sample_stream.

(** Both packages are installed, a key is set, and the provider answers
    every call with a vector of 768 components, the output size of
    [models/embedding-001]. *)
Definition env_gemini : Env :=
  mkEnv true true (Some "test-key"%string) (fun _ => true)
        (fun _ _ => Some (repeat 0%Q 768)) vectorizer_answers sample_stream.

Definition w0 : World := mkWorld 0 0.

(** A stand-in for the store's similarity: the dot product. *)
Definition dot (u v : Embedder.vector) : Q :=
  fold_right Qplus 0%Q (zip_with Qmult u v).

Definition memory_client : QdrantClient := mkClient true dot ∅.

Definition connect_memory (url : string) : option QdrantClient :=
  Some memory_client.

Definition connect_refused (url : string) : option QdrantClient := None.

Definition connect_offline (url : string) : option QdrantClient :=
  Some (mkClient false dot ∅).

(** The metadata built by [process_pdf]. *)
Definition notes_metadata : dict :=
  <["processed_at" := VStr "2024-01-01 10:00:00"]>
    (<["total_chunks" := VInt 1]> {["filename" := VStr "notes.pdf"]}).

Definition fresh (env : Env) (connect : string -> option QdrantClient)
    : VectorMemory.State :=
  VectorMemory.mkState
    (VectorMemory.init env connect ":memory:" "exam_chunks" None) w0.

(** A text of 270 characters, and the same with a cross reference. *)
Definition lorem : str :=
  concat (repeat (of_string "lorem ipsum dolor ") 15).

Definition lorem_with_reference : str :=
  lorem ++ of_string "see Page 12".

(** Identifiers standing for the stream of [uuid.uuid4()]. *)
Definition sample_uuid4 (n : nat) : Z := Z.of_nat n + 1000.

End Inputs.

(** ** Facts about the string primitives *)

Section PyStrFacts.

Implicit Types (s sub : str) (c : ascii).

Lemma len_nonneg s : 0 <= len s.
Proof. unfold len. lia. Qed.

Lemma adjust_range n i : 0 <= n -> 0 <= adjust n i <= n.
Proof. unfold adjust. intros Hn. destruct (i <? 0) eqn:E; lia. Qed.

Lemma adjust_inside n i : 0 <= i <= n -> adjust n i = i.
Proof. unfold adjust. intros H. destruct (i <? 0) eqn:E; lia. Qed.

Lemma slice_full s : slice s 0 (len s) = s.
Proof.
  unfold slice. pose proof (len_nonneg s).
  rewrite !adjust_inside by lia. simpl.
  rewrite Z.sub_0_r. unfold len. rewrite Nat2Z.id. apply firstn_all.
Qed.

Lemma len_slice s a b :
  0 <= a -> 0 <= b -> len (slice s a b) <= Z.max (b - a) 0.
Proof.
  intros Ha Hb. unfold slice, len.
  rewrite length_take, length_drop.
  unfold adjust. fold (len s).
  replace (a <? 0) with false by lia.
  replace (b <? 0) with false by lia.
  pose proof (len_nonneg s). unfold len in *. lia.
Qed.


Lemma rfind_below_spec s sub a n :
  rfind_below s sub a n = -1 \/
  (Z.of_nat a <= rfind_below s sub a n < Z.of_nat a + Z.of_nat n).
Proof.
  induction n as [|k IH]; simpl; [now left|].
  destruct (occurs_at s sub (a + k)); [right; lia|].
  destruct IH as [IH|IH]; [now left | right; lia].
Qed.

(** A hit of [rfind] lies inside the adjusted window. *)
Lemma rfind_spec s sub a b :
  0 <= a ->
  rfind s sub a b = -1 \/
  (a <= rfind s sub a b /\
   rfind s sub a b + len sub <= adjust (len s) b).
Proof.
  intros Ha. unfold rfind.
  replace (a <? 0) with false by lia.
  destruct (rfind_below_spec s sub (Z.to_nat a)
              (Z.to_nat (adjust (len s) b - len sub - a + 1))) as [H|H];
    [now left | right; lia].
Qed.

Lemma lstrip_length s : (length (lstrip s) <= length s)%nat.
Proof.
  induction s as [|c s IH]; simpl; [lia|].
  destruct (isspace c); simpl; lia.
Qed.

Lemma lstrip_head s :
  match lstrip s with [] => True | c :: _ => isspace c = false end.
Proof.
  induction s as [|c s IH]; simpl; [exact I|].
  destruct (isspace c) eqn:E; [exact IH | exact E].
Qed.

Lemma lstrip_fixed c s : isspace c = false -> lstrip (c :: s) = c :: s.
Proof. intros E. simpl. now rewrite E. Qed.

Lemma lstrip_idem s : lstrip (lstrip s) = lstrip s.
Proof.
  pose proof (lstrip_head s) as H.
  destruct (lstrip s) as [|c t]; [reflexivity | now apply lstrip_fixed].
Qed.

Lemma lstrip_snoc s c :
  isspace c = false -> lstrip (s ++ [c]) = lstrip s ++ [c].
Proof.
  intros E. induction s as [|d s IH]; simpl.
  - now rewrite E.
  - destruct (isspace d); [exact IH | reflexivity].
Qed.

Lemma rstrip_length s : (length (rstrip s) <= length s)%nat.
Proof.
  unfold rstrip. rewrite length_rev.
  pose proof (lstrip_length (rev s)) as H. now rewrite length_rev in H.
Qed.

Lemma rstrip_cons c s : isspace c = false -> rstrip (c :: s) = c :: rstrip s.
Proof.
  intros E. unfold rstrip. simpl rev.
  rewrite lstrip_snoc by exact E. now rewrite rev_unit.
Qed.

Lemma rstrip_idem s : rstrip (rstrip s) = rstrip s.
Proof. unfold rstrip. now rewrite rev_involutive, lstrip_idem. Qed.

Lemma strip_length s : len (strip s) <= len s.
Proof.
  unfold strip, len.
  pose proof (rstrip_length (lstrip s)). pose proof (lstrip_length s). lia.
Qed.

(** Trimming a trimmed string changes nothing. *)
Lemma strip_idem s : strip (strip s) = strip s.
Proof.
  unfold strip. pose proof (lstrip_head s) as H.
  destruct (lstrip s) as [|c t]; [reflexivity|].
  rewrite rstrip_cons by exact H.
  rewrite lstrip_fixed by exact H.
  now rewrite !rstrip_cons, rstrip_idem by exact H.
Qed.

End PyStrFacts.

(** ** Facts about one iteration of the splitter *)

Section SplitterFacts.

Variable self : RecursiveCharacterTextSplitter.
Variable text : str.

Lemma truthy_len s : truthy s = true -> 1 <= len s.
Proof. destruct s; [discriminate|]. unfold len. simpl. lia. Qed.

Lemma truthy_nonempty s : truthy s = true <-> s <> [].
Proof. destruct s; simpl; split; congruence. Qed.

(** The back-off either leaves [end] alone or moves it to a position
    strictly after [start + 1] and not after the window's end. *)
Lemma back_off_spec seps start end_ :
  0 <= start ->
  back_off seps text start end_ = end_ \/
  (start + 1 < back_off seps text start end_ /\
   back_off seps text start end_ <= adjust (len text) end_).
Proof.
  intros Hs. induction seps as [|sep rest IH]; simpl; [now left|].
  destruct (truthy sep) eqn:Et; [|exact IH].
  destruct (negb (rfind text sep start end_ =? -1)
            && (rfind text sep start end_ >? start)) eqn:E; [|exact IH].
  right. apply andb_true_iff in E as [E1 E2].
  apply negb_true_iff, Z.eqb_neq in E1.
  apply truthy_len in Et.
  destruct (rfind_spec text sep start end_ Hs) as [H|H]; [contradiction|].
  lia.
Qed.

Lemma cut_le_len start : 0 <= start -> cut self text start <= len text.
Proof.
  intros Hs. unfold cut. pose proof (len_nonneg text) as Hl.
  destruct (Z.min (start + chunk_size self) (len text) <? len text) eqn:E;
    [|lia].
  destruct (back_off_spec (separators self) start
              (Z.min (start + chunk_size self) (len text)) Hs) as [H|[_ H]];
    [lia|].
  pose proof (adjust_range (len text)
                (Z.min (start + chunk_size self) (len text)) Hl). lia.
Qed.

Lemma cut_bounds start :
  0 <= start < len text -> 0 < chunk_size self ->
  start < cut self text start <= start + chunk_size self.
Proof.
  intros Hs Hc. unfold cut.
  destruct (Z.min (start + chunk_size self) (len text) <? len text) eqn:E;
    [|lia].
  destruct (back_off_spec (separators self) start
              (Z.min (start + chunk_size self) (len text)))
    as [H|[H1 H2]]; [lia | lia |].
  rewrite adjust_inside in H2 by lia. lia.
Qed.

Lemma next_start_nonneg end_ : 0 <= next_start self end_.
Proof.
  unfold next_start. destruct (end_ - chunk_overlap self <? 0) eqn:E; lia.
Qed.

Lemma next_start_le end_ :
  0 <= chunk_overlap self -> 0 <= end_ -> next_start self end_ <= end_.
Proof.
  unfold next_start. destruct (end_ - chunk_overlap self <? 0) eqn:E; lia.
Qed.

Lemma emit_ok start end_ chunks :
  0 <= start -> 0 <= end_ -> end_ - start <= chunk_size self ->
  0 < chunk_size self ->
  Forall (fragment_ok self) chunks ->
  Forall (fragment_ok self) (emit text start end_ chunks).
Proof.
  intros Hs He Hd Hc Hall. unfold emit.
  destruct (truthy (strip (slice text start end_))) eqn:E; [|exact Hall].
  apply Forall_app. split; [exact Hall|].
  constructor; [|constructor].
  unfold fragment_ok. rewrite strip_idem.
  apply truthy_nonempty in E. repeat split; [exact E|].
  pose proof (strip_length (slice text start end_)).
  pose proof (len_slice text start end_ Hs He). lia.
Qed.

Lemma loop_ok fuel : forall start chunks r,
  0 <= start -> 0 < chunk_size self ->
  Forall (fragment_ok self) chunks ->
  loop fuel self text start chunks = Some r ->
  Forall (fragment_ok self) r.
Proof.
  induction fuel as [|fuel IH]; intros start chunks r Hs Hc Hall; simpl;
    [discriminate|].
  destruct (start <? len text) eqn:E; [|now intros [= <-]].
  assert (Hb := cut_bounds start ltac:(lia) Hc).
  assert (Hem : Forall (fragment_ok self)
                  (emit text start (cut self text start) chunks))
    by (apply emit_ok; try assumption; lia).
  destruct (cut self text start >=? len text); [now intros [= <-]|].
  apply IH; [apply next_start_nonneg | assumption | assumption].
Qed.

(** The loop emits exactly the chunks of the positions it visits. *)
Lemma loop_cuts fuel : forall start chunks,
  loop fuel self text start chunks =
  option_map
    (fun cs => fold_left (fun acc c => emit text (fst c) (snd c) acc)
                 cs chunks)
    (cuts fuel self text start).
Proof.
  induction fuel as [|fuel IH]; intros start chunks; simpl; [reflexivity|].
  destruct (start <? len text); [|reflexivity].
  destruct (cut self text start >=? len text); [reflexivity|].
  rewrite IH. now destruct (cuts fuel self text _).
Qed.





End SplitterFacts.

(** ** The splitter: termination, coverage, configuration, fragments *)

Section SplitterClaims.

Import Inputs.

(** The scenario of 1000 characters with size 300 and overlap 50: four
    fragments of 300, 300, 300 and 250 characters. *)
Example scenario_1000_300_50 :
  option_map (map (@length ascii))
    (split_text 4 (Splitter.init 300 50 None) (repeat "a"%char 1000))
  = Some [300; 300; 300; 250]%nat.
Proof. vm_compute. reflexivity. Qed.

Lemma stuck_at_zero (self : RecursiveCharacterTextSplitter) (text : str) :
  (0 <? len text) = true ->
  (cut self text 0 >=? len text) = false ->
  next_start self (cut self text 0) = 0 ->
  forall fuel chunks, loop fuel self text 0 chunks = None.
Proof.
  intros Hlen Hcut Hnext fuel.
  induction fuel as [|fuel IH]; intros chunks; simpl; [reflexivity|].
  rewrite Hlen, Hcut, Hnext. apply IH.
Qed.

(** C2. With the default configuration (512, 64) the loop does not
    terminate on a text that starts with a short sentence followed by a
    sentence longer than the window: the back-off cuts after ["Hi. "],
    the overlap sends the cursor back to 0, and every iteration repeats
    the first. No bound on the iterations lets [split_text] return. *)
Theorem split_text_diverges :
  0 <= chunk_overlap default_splitter < chunk_size default_splitter /\
  cut default_splitter short_then_long 0 = 4 /\
  next_start default_splitter 4 = 0 /\
  forall fuel, split_text fuel default_splitter short_then_long = None.
Proof.
  split; [vm_compute; split; congruence|].
  assert (Hc : cut default_splitter short_then_long 0 = 4)
    by (vm_compute; reflexivity).
  split; [exact Hc|]. split; [reflexivity|].
  intros fuel. unfold split_text.
  change (truthy short_then_long) with true. cbv iota.
  apply stuck_at_zero; rewrite ?Hc; vm_compute; reflexivity.
Qed.

(** The same on a small configuration (10, 5). *)
Lemma split_text_diverges_small :
  forall fuel, split_text fuel small_splitter one_space_text = None.
Proof.
  intros fuel. unfold split_text.
  change (truthy one_space_text) with true. cbv iota.
  assert (Hc : cut small_splitter one_space_text 0 = 2)
    by (vm_compute; reflexivity).
  apply stuck_at_zero; rewrite ?Hc; vm_compute; reflexivity.
Qed.





(** C4, as stated, fails: a splitter with [chunk_overlap = 10] and
    [chunk_size = 5] is built without complaint, keeps both values, and
    [split_text] runs with it. *)
Lemma bad_overlap_accepted :
  chunk_size (Splitter.init 5 10 None) = 5 /\
  chunk_overlap (Splitter.init 5 10 None) = 10 /\
  split_text 1 (Splitter.init 5 10 None) (of_string "hi")
    = Some [of_string "hi"].
Proof. repeat split; vm_compute; reflexivity. Qed.

(** C4, amended. [__init__] validates nothing: whatever [chunk_size] and
    [chunk_overlap] are, an overlap at or above the size included, both
    are stored unchanged; [split_text] then runs with them, and on a
    non-empty text no longer than [chunk_size] it returns after one
    iteration with the trimmed text as its only fragment (none if the
    text is blank). *)
Theorem overlap_not_validated size overlap seps text fuel :
  0 < len text <= size ->
  chunk_size (Splitter.init size overlap seps) = size /\
  chunk_overlap (Splitter.init size overlap seps) = overlap /\
  split_text (S fuel) (Splitter.init size overlap seps) text
    = Some (if truthy (strip text) then [strip text] else []).
Proof.
  intros Hl. split; [reflexivity|]. split; [reflexivity|].
  assert (Et : truthy text = true)
    by (destruct text; [unfold len in Hl; simpl in Hl; lia | reflexivity]).
  unfold split_text. rewrite Et. simpl loop.
  replace (0 <? len text) with true by lia.
  assert (Hc : cut (Splitter.init size overlap seps) text 0 = len text).
  { unfold cut. cbn [chunk_size Splitter.init].
    replace (Z.min (0 + size) (len text)) with (len text) by lia.
    now rewrite Z.ltb_irrefl. }
  rewrite Hc. replace (len text >=? len text) with true by lia.
  unfold emit. rewrite slice_full. reflexivity.
Qed.

Lemma overlap_not_validated_witness :
  0 < len (of_string "hi") <= 5 /\
  split_text 1 (Splitter.init 5 10 None) (of_string "hi")
    = Some (if truthy (strip (of_string "hi"))
            then [strip (of_string "hi")] else []).
Proof.
  split; [vm_compute; split; congruence|].
  apply (overlap_not_validated 5 10 None (of_string "hi") 0).
  vm_compute; split; congruence.
Defined.

(** C7. Whenever the overlap is non-negative and below the size, every
    fragment returned by [split_text] is non-empty, is left unchanged by
    trimming again, and has at most [chunk_size] characters. *)
Theorem fragments_trimmed_and_bounded fuel self text frags :
  0 <= chunk_overlap self < chunk_size self ->
  split_text fuel self text = Some frags ->
  Forall (fragment_ok self) frags.
Proof.
  intros Hc. unfold split_text.
  destruct (truthy text); [|intros [= <-]; constructor].
  apply loop_ok; [lia | lia | constructor].
Qed.

Lemma fragments_trimmed_and_bounded_witness :
  0 <= chunk_overlap (Splitter.init 16 2 None)
    < chunk_size (Splitter.init 16 2 None) /\
  Forall (fragment_ok (Splitter.init 16 2 None))
    (map of_string
       ["Hello world."; ". This is a"; "a test of the"; "e splitter!";
        "! Yes? ok"]%string).
Proof.
  split; [vm_compute; split; congruence|].
  apply (fragments_trimmed_and_bounded 100 (Splitter.init 16 2 None)
           sample_text).
  - vm_compute; split; congruence.
  - vm_compute; reflexivity.
Defined.

End SplitterClaims.

(** ** The embedder: dimension and determinism *)

Section EmbedderClaims.

Import Inputs.

Lemma pad_or_truncate_length v : length (pad_or_truncate v) = 512%nat.
Proof.
  unfold pad_or_truncate.
  destruct (length v <? 512)%nat eqn:E.
  - apply Nat.ltb_lt in E. rewrite length_app, repeat_length. lia.
  - apply Nat.ltb_ge in E. rewrite length_take. lia.
Qed.

Lemma random_rand_length env n w v w' :
  random_rand env n w = (Ok v, w') -> length v = n.
Proof.
  unfold random_rand. intros [= <- _]. now rewrite length_map, length_seq.
Qed.

(** Whatever the statistical tier returns has 512 components. *)
Lemma tfidf_length env self text w v w' :
  get_tfidf_embedding env self text w = (Ok v, w') -> length v = 512%nat.
Proof.
  unfold get_tfidf_embedding, try_except, raise, ret.
  destruct (SKLEARN_AVAILABLE env); simpl; [|discriminate].
  destruct (fit_transform env text).
  - intros [= <- _]. apply pad_or_truncate_length.
  - apply random_rand_length.
Qed.

(** C1. Two inputs on which [get_embedding] does not return a vector of
    512 components. Without scikit-learn and without the provider, the
    random tier is reached and the call raises [UnboundLocalError]
    instead of returning. With the provider answering, its vector is
    returned as it is: 768 components for a collection of size 512. *)
Theorem get_embedding_misses_dimension :
  get_embedding env_plain (Embedder.init env_plain None) "hello" w0
    = (Raise UnboundLocalError, w0) /\
  exists v w,
    get_embedding env_gemini (Embedder.init env_gemini None) "hello" w0
      = (Ok v, w) /\
    length v = 768%nat /\ length v <> DIM.
Proof.
  split; [vm_compute; reflexivity|].
  exists (repeat 0%Q 768), (mkWorld 1 0).
  split; [vm_compute; reflexivity|].
  split; [vm_compute; reflexivity | vm_compute; congruence].
Qed.




End EmbedderClaims.

(** ** Facts about the store and the instance *)

Section VectorMemoryFacts.

Import VectorMemory.

Variable env : Env.

Lemma lookup_map {A B} (f : A -> B) (l : list A) (i : nat) :
  map f l !! i = f <$> (l !! i).
Proof.
  revert i. induction l as [|x l IH]; intros [|i]; simpl; auto.
Qed.

Lemma elem_of_map_inv {A B} (f : A -> B) (l : list A) (y : B) :
  y ∈ map f l -> exists x, y = f x /\ x ∈ l.
Proof.
  induction l as [|x l IH]; simpl; intros H.
  - inversion H.
  - apply elem_of_cons in H as [->|H].
    + exists x. split; [reflexivity | left].
    + destruct (IH H) as (x' & -> & Hin). exists x'.
      split; [reflexivity | now right].
Qed.

Lemma enumerate_lookup {A} (l : list A) (i : nat) :
  enumerate l !! i = (fun x => (Z.of_nat i, x)) <$> (l !! i).
Proof.
  unfold enumerate. rewrite lookup_zip_with, lookup_map.
  destruct (l !! i) as [x|] eqn:E.
  - rewrite lookup_seq_lt by (eapply lookup_lt_Some; exact E). reflexivity.
  - rewrite lookup_seq_ge by (apply lookup_ge_None; exact E). reflexivity.
Qed.

Lemma build_points_lookup vectors chunks metadata (i : nat) :
  build_points vectors chunks metadata !! i =
  match vectors !! i, chunks !! i with
  | Some v, Some c =>
      Some (mkPoint (Z.of_nat i) v (point_payload metadata (Z.of_nat i) c))
  | _, _ => None
  end.
Proof.
  unfold build_points. rewrite lookup_map, enumerate_lookup.
  rewrite lookup_zip_with.
  destruct (vectors !! i), (chunks !! i); reflexivity.
Qed.

Lemma build_points_id vectors chunks metadata (i : nat) p :
  build_points vectors chunks metadata !! i = Some p -> id p = Z.of_nat i.
Proof.
  rewrite build_points_lookup.
  destruct (vectors !! i), (chunks !! i); intros [= <-]; reflexivity.
Qed.

(** *** The store *)







(** *** The instance *)

Lemma get_attr_ok k v st :
  self st !! k = Some v -> get_attr k st = (Ok v, st).
Proof. unfold get_attr. now intros ->. Qed.

Lemma embed_self text st r st' :
  embed env text st = (r, st') -> self st' = self st.
Proof.
  unfold embed, bind, get_attr, raise, in_world.
  destruct (self st !! "embedder") as [[]|]; try (now intros [= _ <-]).
  destruct (get_embedding env e text (world st)). now intros [= _ <-].
Qed.

Lemma for_each_embed chunks : forall st r st',
  for_each (embed env) chunks st = (r, st') ->
  self st' = self st /\
  forall vs, r = Ok vs -> length vs = length chunks.
Proof.
  induction chunks as [|c chunks IH]; intros st r st'; simpl.
  - unfold ret. intros [= <- <-]. split; [reflexivity|].
    now intros vs [= <-].
  - unfold bind at 1.
    destruct (embed env c st) as [[v|e] st1] eqn:E1.
    + apply embed_self in E1. unfold bind at 1.
      destruct (for_each (embed env) chunks st1) as [[vs|e] st2] eqn:E2.
      * apply IH in E2 as [E2 E3]. unfold ret. intros [= <- <-].
        split; [congruence|]. intros ws [= <-]. simpl.
        now rewrite (E3 vs eq_refl).
      * apply IH in E2 as [E2 _]. intros [= <- <-].
        split; [congruence | discriminate].
    + apply embed_self in E1. intros [= <- <-].
      split; [assumption | discriminate].
Qed.



End VectorMemoryFacts.

(** ** VectorMemory: degraded mode, result shape, identifiers, failures *)

Section VectorMemoryClaims.

Import VectorMemory Inputs.

(** *** Degraded mode *)

(** An attribute found in a dictionary built by successive assignments
    is one of the names assigned. *)
Ltac known_attr H :=
  repeat (apply lookup_insert_Some in H as [[<- _]|[_ H]];
          [unfold known_attrs; set_solver|]);
  rewrite lookup_empty in H; discriminate H.

Lemma init_unreachable env connect url name key :
  (forall c, connect url = Some c -> reachable c = false) ->
  in_fallback (init env connect url name key) [].
Proof.
  intros Hun. unfold init, in_fallback.
  destruct (connect url) as [c|] eqn:Ec.
  - unfold get_collection, create_collection.
    rewrite (Hun c eq_refl). simpl.
    rewrite lookup_insert_eq.
    rewrite lookup_insert_ne by discriminate. rewrite lookup_insert_eq.
    repeat split. intros k [v Hk]. now known_attr Hk.
  - rewrite lookup_insert_eq.
    rewrite lookup_insert_ne by discriminate. rewrite lookup_insert_eq.
    repeat split. intros k [v Hk]. now known_attr Hk.
Qed.

Lemma fallback_store env chunks metadata st recs :
  in_fallback (self st) recs ->
  exists st',
    store_document env chunks metadata st = (Ok tt, st') /\
    in_fallback (self st') (recs ++ fallback_records chunks metadata).
Proof.
  intros (Hc & Hf & Hk). unfold store_document, bind.
  rewrite (get_attr_ok _ _ _ Hc). unfold append_fallback.
  destruct chunks as [|c chunks].
  - exists st. split; [reflexivity|].
    unfold fallback_records. simpl. rewrite app_nil_r. repeat split; auto.
  - unfold bind. rewrite (get_attr_ok _ _ _ Hf).
    unfold set_attr, modify. eexists. split; [reflexivity|]. simpl self.
    split; [now rewrite lookup_insert_ne by discriminate|].
    split; [apply lookup_insert_eq|].
    intros k [v Hv]. apply lookup_insert_Some in Hv as [[<- _]|[_ Hv]];
      [unfold known_attrs; set_solver | apply Hk; eauto].
Qed.

Lemma fallback_retrieve_ok env query top_k st recs :
  in_fallback (self st) recs ->
  retrieve env query top_k st = (Ok (prefix recs top_k), st).
Proof.
  intros (Hc & Hf & _). unfold retrieve, bind.
  rewrite (get_attr_ok _ _ _ Hc). unfold fallback_retrieve. now rewrite Hf.
Qed.

Lemma run_calls_fallback env cs : forall st recs,
  in_fallback (self st) recs ->
  fst (run_calls env cs st) = true /\
  in_fallback (self (snd (run_calls env cs st))) (recs ++ stored_records cs).
Proof.
  induction cs as [|[chunks metadata|query top_k] cs IH]; intros st recs Hin;
    simpl.
  - unfold stored_records. simpl. rewrite app_nil_r. auto.
  - destruct (fallback_store env chunks metadata st recs Hin)
      as (st' & -> & Hin').
    destruct (IH st' _ Hin') as [H1 H2]. split; [exact H1|].
    unfold stored_records in *. simpl. now rewrite app_assoc.
  - rewrite (fallback_retrieve_ok env query top_k st recs Hin).
    apply (IH st recs Hin).
Qed.

(** C5, as stated, fails on its last part: the instance built when the
    client constructor raises has exactly two attributes, [client]
    ([None]) and [_fallback_storage] (empty); there is no status or mode
    field. *)
Lemma degraded_mode_not_reported :
  init env_plain connect_refused ":memory:" "exam_chunks" None
    = <["_fallback_storage" := AList []]> (<["client" := ANone]> ∅) /\
  init env_plain connect_refused ":memory:" "exam_chunks" None !! "status"
    = None /\
  init env_plain connect_refused ":memory:" "exam_chunks" None !! "mode"
    = None /\
  ~ has_status_field
      (init env_plain connect_refused ":memory:" "exam_chunks" None).
Proof.
  split; [reflexivity|]. split; [reflexivity|]. split; [reflexivity|].
  intros (k & Hk & Hs). apply Hk.
  destruct (init_unreachable env_plain connect_refused ":memory:"
              "exam_chunks" None) as (_ & _ & H); [discriminate|].
  exact (H k Hs).
Qed.

(** C5, amended. If the store is unreachable when the instance is built
    (the client constructor raises, or every call of the client does),
    then every later sequence of [store_document] and [retrieve] calls
    runs without an exception on the in-process list: [client] stays
    [None], the list holds the records of the stored chunks in call
    order, and the instance has no attribute besides [client],
    [collection], [embedder] and [_fallback_storage]: the mode shows only
    in [client] being [None]. *)
Theorem degraded_calls_succeed env connect url name key w cs :
  (forall c, connect url = Some c -> reachable c = false) ->
  fst (run_calls env cs (mkState (init env connect url name key) w)) = true /\
  self (snd (run_calls env cs (mkState (init env connect url name key) w)))
    !! "client" = Some ANone /\
  self (snd (run_calls env cs (mkState (init env connect url name key) w)))
    !! "_fallback_storage" = Some (AList (stored_records cs)) /\
  ~ has_status_field
      (self (snd (run_calls env cs
                    (mkState (init env connect url name key) w)))).
Proof.
  intros Hun.
  destruct (run_calls_fallback env cs
              (mkState (init env connect url name key) w) []
              (init_unreachable env connect url name key Hun))
    as (Hok & Hc & Hf & Hk).
  split; [exact Hok|]. split; [exact Hc|]. split; [exact Hf|].
  intros (k & Hn & Hs). exact (Hn (Hk k Hs)).
Qed.

Lemma degraded_calls_succeed_witness :
  (forall c, connect_offline ":memory:" = Some c -> reachable c = false) /\
  fst (run_calls env_plain
         [StoreDocument ["alpha"; "beta"]%string notes_metadata;
          Retrieve "alpha" 5]
         (fresh env_plain connect_offline)) = true.
Proof.
  assert (H : forall c, connect_offline ":memory:" = Some c ->
                        reachable c = false)
    by (intros c [= <-]; reflexivity).
  split; [exact H|].
  exact (proj1 (degraded_calls_succeed env_plain connect_offline ":memory:"
                  "exam_chunks" None w0 _ H)).
Defined.

(** *** Result shape *)





(** *** Identifiers *)




(** *** Failures of the store *)




End VectorMemoryClaims.

(** ** The splitter: when it terminates, when it cannot, what it returns *)

Section SplitterMore.

Import Inputs.

Variable self : RecursiveCharacterTextSplitter.
Variable text : str.

Lemma rfind_below_none s sub a n :
  rfind_below s sub a n = -1 <->
  forall k, (k < n)%nat -> occurs_at s sub (a + k) = false.
Proof.
  induction n as [|n IH]; simpl.
  - split; [intros _ k Hk; lia | reflexivity].
  - destruct (occurs_at s sub (a + n)) eqn:E.
    + split; [lia|]. intros H. rewrite (H n) in E by lia. discriminate.
    + rewrite IH. split; intros H k Hk.
      * destruct (decide (k = n)) as [->|Hne]; [exact E | apply H; lia].
      * apply H. lia.
Qed.

(** A separator absent from the whole text is absent from every window. *)
Lemma rfind_none_window s sub start end_ :
  0 <= start -> rfind s sub 0 (len s) = -1 -> rfind s sub start end_ = -1.
Proof.
  intros Hs H. unfold rfind in *. pose proof (len_nonneg s) as Hl.
  replace (start <? 0) with false by lia.
  change (0 <? 0) with false in H. cbv iota in H.
  rewrite adjust_inside in H by lia.
  rewrite rfind_below_none in *. intros k Hk.
  pose proof (adjust_range (len s) end_ Hl).
  replace (Z.to_nat start + k)%nat with (Z.to_nat 0 + (Z.to_nat start + k))%nat
    by reflexivity.
  apply H. lia.
Qed.

Lemma back_off_free start end_ :
  separator_free self text -> 0 <= start ->
  back_off (separators self) text start end_ = end_.
Proof.
  unfold separator_free. intros Hf Hs.
  induction (separators self) as [|sep rest IH]; simpl; [reflexivity|].
  inversion Hf as [|? ? Hsep Hrest]; subst.
  destruct (truthy sep) eqn:Et; [|now apply IH].
  rewrite (rfind_none_window text sep start end_ Hs (Hsep eq_refl)).
  simpl. now apply IH.
Qed.

Lemma cut_free start :
  separator_free self text -> 0 <= start ->
  cut self text start = Z.min (start + chunk_size self) (len text).
Proof.
  intros Hf Hs. unfold cut. rewrite back_off_free by assumption.
  now destruct (_ <? _).
Qed.

(** The number of chunks grows by at most one per iteration. *)
Lemma loop_length fuel : forall start chunks r,
  loop fuel self text start chunks = Some r ->
  (length chunks <= length r <= length chunks + fuel)%nat.
Proof.
  induction fuel as [|fuel IH]; intros start chunks r; simpl; [discriminate|].
  assert (He : forall e, (length chunks <= length (emit text start e chunks)
                          <= length chunks + 1)%nat).
  { intros e. unfold emit. destruct (truthy _); [|lia].
    rewrite length_app. simpl. lia. }
  destruct (start <? len text); [|intros [= <-]; lia].
  specialize (He (cut self text start)).
  destruct (cut self text start >=? len text); [intros [= <-]; lia|].
  intros H. apply IH in H. lia.
Qed.

Lemma loop_terminates_free fuel : forall start chunks,
  separator_free self text ->
  0 <= chunk_overlap self < chunk_size self ->
  0 <= start ->
  len text - start - chunk_size self
    <= Z.of_nat fuel * (chunk_size self - chunk_overlap self) ->
  exists r, loop (S fuel) self text start chunks = Some r.
Proof.
  induction fuel as [|fuel IH]; intros start chunks Hf Hc Hs Hm;
    cbn [loop]; destruct (start <? len text) eqn:E; eauto;
    rewrite (cut_free start Hf Hs).
  - replace (Z.min (start + chunk_size self) (len text) >=? len text)
      with true by lia. eauto.
  - destruct (Z.min (start + chunk_size self) (len text) >=? len text)
      eqn:Ec; [eauto|].
    apply IH; try assumption.
    + apply next_start_nonneg.
    + unfold next_start.
      destruct (Z.min (start + chunk_size self) (len text)
                - chunk_overlap self <? 0) eqn:En; lia.
Qed.

(** X1. With [0 <= chunk_overlap < chunk_size] and a text in which no
    separator of the list occurs, [split_text] returns within
    [len(text) / (chunk_size - chunk_overlap) + 1] iterations, and with
    at most that many fragments. *)
Theorem split_text_terminates_without_separators :
  0 <= chunk_overlap self < chunk_size self ->
  separator_free self text ->
  exists frags,
    split_text
      (S (Z.to_nat (len text / (chunk_size self - chunk_overlap self))))
      self text = Some frags /\
    Z.of_nat (length frags)
      <= len text / (chunk_size self - chunk_overlap self) + 1.
Proof.
  intros Hc Hf. unfold split_text. pose proof (len_nonneg text) as Hl.
  destruct (truthy text).
  - destruct (loop_terminates_free
                (Z.to_nat (len text / (chunk_size self - chunk_overlap self)))
                0 [] Hf Hc ltac:(lia)) as [r Hr].
    + assert (0 <= len text / (chunk_size self - chunk_overlap self))
        by (apply Z.div_pos; lia).
      rewrite Z2Nat.id by assumption.
      pose proof (Z.mul_succ_div_gt (len text)
                    (chunk_size self - chunk_overlap self) ltac:(lia)).
      lia.
    + exists r. split; [exact Hr|].
      apply loop_length in Hr. simpl in Hr.
      assert (0 <= len text / (chunk_size self - chunk_overlap self))
        by (apply Z.div_pos; lia).
      lia.
  - exists []. split; [reflexivity|]. simpl.
    assert (0 <= len text / (chunk_size self - chunk_overlap self))
      by (apply Z.div_pos; lia).
    lia.
Qed.

(** X2. If the first window ends before the end of the text and within
    [chunk_overlap] of its start, the cursor comes back to 0 and
    [split_text] returns for no bound on the iterations. *)
Theorem split_text_stuck_when_cut_within_overlap :
  truthy text = true ->
  cut self text 0 < len text ->
  cut self text 0 <= chunk_overlap self ->
  forall fuel, split_text fuel self text = None.
Proof.
  intros Ht Hlt Hle fuel. unfold split_text. rewrite Ht.
  apply stuck_at_zero.
  - apply truthy_len in Ht. lia.
  - lia.
  - unfold next_start.
    destruct (cut self text 0 - chunk_overlap self <? 0) eqn:E; lia.
Qed.

(** X3. A positive [chunk_size] that does not exceed [chunk_overlap]:
    on every text longer than [chunk_size], [split_text] returns for no
    bound on the iterations. *)
Theorem split_text_loops_on_bad_overlap :
  0 < chunk_size self <= chunk_overlap self ->
  chunk_size self < len text ->
  forall fuel, split_text fuel self text = None.
Proof.
  intros Hc Hl fuel.
  assert (Ht : truthy text = true)
    by (destruct text; [unfold len in Hl; simpl in Hl; lia | reflexivity]).
  pose proof (cut_bounds self text 0 ltac:(lia) ltac:(lia)) as Hb.
  unfold split_text. rewrite Ht. apply stuck_at_zero.
  - lia.
  - lia.
  - unfold next_start.
    destruct (cut self text 0 - chunk_overlap self <? 0) eqn:E; lia.
Qed.

Lemma lstrip_suffix s : exists pre, s = pre ++ lstrip s.
Proof.
  induction s as [|c s [pre IH]]; simpl; [now exists []|].
  destruct (isspace c); [|now exists []].
  exists (c :: pre). simpl. now rewrite <- IH.
Qed.

Lemma strip_substring s : substring_of s (strip s).
Proof.
  unfold strip, rstrip. destruct (lstrip_suffix s) as [pre Hpre].
  destruct (lstrip_suffix (rev (lstrip s))) as [post Hpost].
  exists pre, (rev post).
  rewrite <- rev_app_distr, <- Hpost, rev_involutive. exact Hpre.
Qed.

Lemma slice_substring s a b : substring_of s (slice s a b).
Proof.
  unfold slice.
  exists (take (Z.to_nat (adjust (len s) a)) s),
         (drop (Z.to_nat (adjust (len s) b - adjust (len s) a))
               (drop (Z.to_nat (adjust (len s) a)) s)).
  now rewrite !take_drop.
Qed.

Lemma substring_trans s t u :
  substring_of s t -> substring_of t u -> substring_of s u.
Proof.
  intros (p1 & q1 & ->) (p2 & q2 & ->).
  exists (p1 ++ p2), (q2 ++ q1). now rewrite <- !app_assoc.
Qed.

Lemma loop_substrings fuel : forall start chunks r,
  Forall (substring_of text) chunks ->
  loop fuel self text start chunks = Some r ->
  Forall (substring_of text) r.
Proof.
  induction fuel as [|fuel IH]; intros start chunks r Hall; simpl;
    [discriminate|].
  assert (He : forall e, Forall (substring_of text)
                           (emit text start e chunks)).
  { intros e. unfold emit. destruct (truthy _); [|exact Hall].
    apply Forall_app. split; [exact Hall|]. constructor; [|constructor].
    eapply substring_trans; [apply slice_substring | apply strip_substring]. }
  destruct (start <? len text); [|now intros [= <-]].
  destruct (cut self text start >=? len text); [intros [= <-]; apply He|].
  apply IH, He.
Qed.

(** X4. Whatever the configuration, every fragment returned by
    [split_text] is a run of consecutive characters of the text. *)
Theorem fragments_are_substrings fuel frags :
  split_text fuel self text = Some frags ->
  Forall (substring_of text) frags.
Proof.
  unfold split_text. destruct (truthy text); [|intros [= <-]; constructor].
  apply loop_substrings. constructor.
Qed.

Lemma cuts_terminate_zero_overlap fuel : forall start,
  chunk_overlap self = 0 -> 0 < chunk_size self ->
  0 <= start < len text ->
  len text - start <= Z.of_nat fuel ->
  exists cs, cuts fuel self text start = Some cs.
Proof.
  induction fuel as [|fuel IH]; intros start Ho Hc Hs Hf; [lia|].
  cbn [cuts]. replace (start <? len text) with true by lia.
  pose proof (cut_bounds self text start Hs Hc) as Hb.
  destruct (cut self text start >=? len text) eqn:E; [eauto|].
  assert (Hn : next_start self (cut self text start) = cut self text start).
  { unfold next_start. rewrite Ho, Z.sub_0_r.
    destruct (cut self text start <? 0) eqn:E'; lia. }
  rewrite Hn. destruct (IH (cut self text start) Ho Hc) as [cs ->];
    [lia | lia | eauto].
Qed.

Lemma slice_drop start end_ :
  0 <= start <= end_ -> end_ <= len text ->
  slice text start end_ ++ drop (Z.to_nat end_) text
  = drop (Z.to_nat start) text.
Proof.
  intros Hs He. unfold slice. rewrite !adjust_inside by lia.
  replace (Z.to_nat end_)
    with (Z.to_nat start + Z.to_nat (end_ - start))%nat by lia.
  rewrite <- drop_drop. apply take_drop.
Qed.

Lemma cuts_partition fuel : forall start cs,
  chunk_overlap self = 0 -> 0 < chunk_size self ->
  0 <= start ->
  cuts fuel self text start = Some cs ->
  concat (map (fun c => slice text (fst c) (snd c)) cs)
  = drop (Z.to_nat start) text.
Proof.
  induction fuel as [|fuel IH]; intros start cs Ho Hc Hs; [discriminate|].
  cbn [cuts]. destruct (start <? len text) eqn:El.
  - pose proof (cut_bounds self text start ltac:(lia) Hc) as Hb.
    pose proof (cut_le_len self text start Hs) as Hle.
    destruct (cut self text start >=? len text) eqn:E.
    + intros [= <-]. cbn [map concat fst snd]. rewrite app_nil_r.
      rewrite <- (slice_drop start (cut self text start)) by lia.
      rewrite (drop_ge text) by (unfold len in *; lia).
      now rewrite app_nil_r.
    + assert (Hn : next_start self (cut self text start)
                   = cut self text start).
      { unfold next_start. rewrite Ho, Z.sub_0_r.
        destruct (cut self text start <? 0) eqn:E'; lia. }
      rewrite Hn.
      destruct (cuts fuel self text (cut self text start)) as [rest|] eqn:Er;
        [|discriminate].
      intros [= <-]. cbn [map concat fst snd].
      rewrite (IH (cut self text start) rest Ho Hc ltac:(lia) Er).
      apply slice_drop; lia.
  - intros [= <-]. rewrite drop_ge by (unfold len in *; lia). reflexivity.
Qed.

(** X22. Without overlap and with a positive [chunk_size], [split_text]
    returns on every text within [len(text)] iterations, and its windows
    cut the text into consecutive pieces: the untrimmed slices, put end
    to end, are the text. *)
Theorem zero_overlap_partitions_text :
  chunk_overlap self = 0 -> 0 < chunk_size self ->
  exists cs frags,
    split_cuts (Z.to_nat (len text)) self text = Some cs /\
    split_text (Z.to_nat (len text)) self text = Some frags /\
    frags = chunks_of text cs /\
    concat (map (fun c => slice text (fst c) (snd c)) cs) = text.
Proof.
  intros Ho Hc. unfold split_text, split_cuts, chunks_of.
  destruct (truthy text) eqn:Et.
  - apply truthy_len in Et.
    destruct (cuts_terminate_zero_overlap (Z.to_nat (len text)) 0 Ho Hc)
      as [cs Hcs]; [lia | lia |].
    exists cs. eexists. split; [exact Hcs|].
    rewrite loop_cuts, Hcs. split; [reflexivity|]. split; [reflexivity|].
    now rewrite (cuts_partition _ 0 cs Ho Hc ltac:(lia) Hcs).
  - exists [], []. destruct text; [auto | discriminate].
Qed.

End SplitterMore.

Lemma split_text_terminates_without_separators_witness :
  0 <= chunk_overlap (Splitter.init 300 50 None)
    < chunk_size (Splitter.init 300 50 None) /\
  exists frags,
    split_text 5 (Splitter.init 300 50 None) (repeat "a"%char 1000)
      = Some frags /\
    Z.of_nat (length frags) <= 5.
Proof.
  split; [vm_compute; split; congruence|].
  apply (split_text_terminates_without_separators
           (Splitter.init 300 50 None) (repeat "a"%char 1000)).
  - vm_compute; split; congruence.
  - unfold separator_free.
    repeat (constructor; [intros _; vm_compute; reflexivity|]).
    constructor; [discriminate | constructor].
Defined.

Lemma split_text_stuck_when_cut_within_overlap_witness :
  cut Inputs.small_splitter Inputs.one_space_text 0
    <= chunk_overlap Inputs.small_splitter /\
  split_text 1000 Inputs.small_splitter Inputs.one_space_text = None.
Proof.
  split; [vm_compute; congruence|].
  apply (split_text_stuck_when_cut_within_overlap Inputs.small_splitter
           Inputs.one_space_text);
    vm_compute; congruence.
Defined.

Lemma split_text_loops_on_bad_overlap_witness :
  0 < chunk_size (Splitter.init 5 10 None)
    <= chunk_overlap (Splitter.init 5 10 None) /\
  split_text 1000 (Splitter.init 5 10 None) (of_string "abcdefgh") = None.
Proof.
  split; [vm_compute; split; congruence|].
  apply (split_text_loops_on_bad_overlap (Splitter.init 5 10 None)
           (of_string "abcdefgh"));
    vm_compute; try split; congruence.
Defined.

Lemma fragments_are_substrings_witness :
  Forall (substring_of Inputs.sample_text)
    (map of_string
       ["Hello world."; ". This is a"; "a test of the"; "e splitter!";
        "! Yes? ok"]%string).
Proof.
  apply (fragments_are_substrings (Splitter.init 16 2 None)
           Inputs.sample_text 100).
  vm_compute; reflexivity.
Defined.

Lemma zero_overlap_partitions_text_witness :
  exists cs,
    split_cuts 3 (Splitter.init 2 0 None) (of_string "a b") = Some cs /\
    concat (map (fun c => slice (of_string "a b") (fst c) (snd c)) cs)
    = of_string "a b".
Proof.
  destruct (zero_overlap_partitions_text (Splitter.init 2 0 None)
              (of_string "a b")) as (cs & frags & H1 & _ & _ & H2).
  - reflexivity.
  - vm_compute; reflexivity.
  - exists cs. split; assumption.
Defined.

(** ** VectorMemory: what the calls never do *)

Section VectorMemoryMore.

Import VectorMemory Inputs.

Variable env : Env.

Lemma client_upsert_self pts st r st' :
  client_upsert pts st = (r, st') ->
  self st' = self st \/
  exists cl', self st' = <["client" := AClient cl']> (self st).
Proof.
  unfold client_upsert, bind, get_attr, raise.
  destruct (self st !! "client") as [c|]; [|intros [= _ <-]; now left].
  destruct (self st !! "collection") as [n|]; [|intros [= _ <-]; now left].
  destruct c; try (intros [= _ <-]; now left).
  destruct n; try (intros [= _ <-]; now left).
  destruct (upsert s pts c) as [r' cl'] eqn:E.
  intros [= _ <-]. right. now exists cl'.
Qed.

Lemma store_try_self chunks metadata st r st' :
  store_document_try env chunks metadata st = (r, st') ->
  self st' = self st \/
  exists cl', self st' = <["client" := AClient cl']> (self st).
Proof.
  unfold store_document_try. unfold bind at 1.
  destruct (for_each (embed env) chunks st) as [[vs|e] st1] eqn:E;
    apply for_each_embed in E as [Hs _].
  - intros H. apply client_upsert_self in H. now rewrite Hs in H.
  - intros [= _ <-]. now left.
Qed.

Lemma retrieve_try_self query top_k st r st' :
  retrieve_try env query top_k st = (r, st') -> self st' = self st.
Proof.
  unfold retrieve_try. unfold bind at 1.
  destruct (embed env query st) as [[v|e] st1] eqn:E;
    apply embed_self in E; [|now intros [= _ <-]].
  unfold bind, get_attr, raise, ret.
  destruct (self st1 !! "client") as [c|]; [|now intros [= _ <-]].
  destruct (self st1 !! "collection") as [n|]; [|now intros [= _ <-]].
  destruct c; try (now intros [= _ <-]).
  destruct n; try (now intros [= _ <-]).
  destruct (search c s v top_k); now intros [= _ <-].
Qed.

Lemma init_well_formed connect url name key :
  well_formed (init env connect url name key).
Proof.
  unfold init, well_formed.
  destruct (connect url) as [c|].
  - destruct (get_collection c name).
    + right. exists c. split; [reflexivity | now left].
    + destruct (create_collection c name 512) as [c'|].
      * right. exists c'. split; [apply lookup_insert_eq | now left].
      * left. rewrite lookup_insert_eq.
        rewrite lookup_insert_ne by discriminate. rewrite lookup_insert_eq.
        eauto.
  - left. rewrite lookup_insert_eq.
    rewrite lookup_insert_ne by discriminate. rewrite lookup_insert_eq.
    eauto.
Qed.

Lemma store_document_well_formed chunks metadata st :
  well_formed (self st) ->
  exists st', store_document env chunks metadata st = (Ok tt, st') /\
              well_formed (self st').
Proof.
  intros [[Hc [recs Hf]]|[cl [Hc Hf]]]; unfold store_document, bind;
    rewrite (get_attr_ok _ _ _ Hc).
  - unfold append_fallback. destruct chunks as [|c chunks].
    + exists st. split; [reflexivity|]. left. eauto.
    + unfold bind. rewrite (get_attr_ok _ _ _ Hf).
      unfold set_attr, modify. eexists. split; [reflexivity|].
      left. simpl. rewrite lookup_insert_ne by discriminate.
      rewrite lookup_insert_eq. eauto.
  - unfold try_except.
    destruct (store_document_try env chunks metadata st) as [[[]|e] st1]
      eqn:E; apply store_try_self in E.
    + exists st1. split; [reflexivity|]. right.
      destruct E as [->|[cl' ->]]; [now exists cl|].
      exists cl'. rewrite lookup_insert_eq.
      rewrite lookup_insert_ne by discriminate. auto.
    + assert (Hc1 : exists cl1, self st1 !! "client" = Some (AClient cl1)).
      { destruct E as [->|[cl' ->]]; [now exists cl|].
        exists cl'. apply lookup_insert_eq. }
      destruct Hc1 as [cl1 Hc1].
      unfold bind, set_attr, modify, append_fallback.
      destruct chunks as [|c chunks].
      * eexists. split; [reflexivity|]. right. exists cl1. simpl.
        rewrite lookup_insert_ne by discriminate.
        rewrite lookup_insert_eq. eauto.
      * unfold bind, get_attr. simpl self. rewrite lookup_insert_eq.
        unfold set_attr, modify. eexists. split; [reflexivity|].
        right. exists cl1. simpl.
        rewrite !lookup_insert_ne by discriminate.
        rewrite lookup_insert_eq. eauto.
Qed.

Lemma retrieve_well_formed query top_k st :
  well_formed (self st) ->
  exists recs st', retrieve env query top_k st = (Ok recs, st') /\
                   self st' = self st.
Proof.
  intros [[Hc [recs Hf]]|[cl [Hc Hf]]]; unfold retrieve, bind;
    rewrite (get_attr_ok _ _ _ Hc).
  - unfold fallback_retrieve. rewrite Hf. eauto.
  - unfold try_except.
    destruct (retrieve_try env query top_k st) as [[recs|e] st1] eqn:E;
      apply retrieve_try_self in E; [eauto|].
    unfold fallback_retrieve. rewrite E.
    destruct Hf as [->|[recs ->]]; eauto.
Qed.

Lemma run_calls_well_formed cs : forall st,
  well_formed (self st) ->
  fst (run_calls env cs st) = true /\
  well_formed (self (snd (run_calls env cs st))).
Proof.
  induction cs as [|[chunks metadata|query top_k] cs IH]; intros st Hwf;
    simpl; [auto| |].
  - destruct (store_document_well_formed chunks metadata st Hwf)
      as (st' & -> & Hwf'). now apply IH.
  - destruct (retrieve_well_formed query top_k st Hwf)
      as (recs & st' & -> & Hs). apply IH. now rewrite Hs.
Qed.

(** X5. Whatever the environment and whether or not the store can be
    reached, no [store_document] or [retrieve] call made on an instance
    built by [__init__] raises: every sequence of calls runs to its
    end. *)
Theorem calls_never_raise connect url name key w cs :
  fst (run_calls env cs (mkState (init env connect url name key) w)) = true.
Proof.
  apply run_calls_well_formed. apply init_well_formed.
Qed.

(** X6. [retrieve] only reads: on an instance in one of the shapes the
    class produces it returns a list of records and leaves every
    attribute as it was. *)
Theorem retrieve_changes_no_attribute query top_k st :
  well_formed (self st) ->
  exists recs st',
    retrieve env query top_k st = (Ok recs, st') /\ self st' = self st.
Proof. apply retrieve_well_formed. Qed.

End VectorMemoryMore.

Lemma retrieve_changes_no_attribute_witness :
  exists recs st',
    VectorMemory.retrieve Inputs.env_sklearn "alpha" 5
      (Inputs.fresh Inputs.env_sklearn Inputs.connect_memory)
      = (Ok recs, st') /\
    VectorMemory.self st'
      = VectorMemory.self (Inputs.fresh Inputs.env_sklearn
                             Inputs.connect_memory).
Proof.
  apply (retrieve_changes_no_attribute Inputs.env_sklearn "alpha" 5
           (Inputs.fresh Inputs.env_sklearn Inputs.connect_memory)).
  right. eexists. split; [vm_compute; reflexivity|].
  left. vm_compute; reflexivity.
Defined.

(** ** VectorMemory: what is stored is what is retrieved *)

Section RoundTrip.

Import VectorMemory Inputs.

Variable env : Env.

Lemma tfidf_total self text w :
  SKLEARN_AVAILABLE env = true ->
  exists v w', get_tfidf_embedding env self text w = (Ok v, w') /\
               length v = 512%nat.
Proof.
  intros Hs.
  destruct (get_tfidf_embedding env self text w) as [[v|e] w'] eqn:E.
  - exists v, w'. split; [reflexivity|]. eapply tfidf_length; exact E.
  - exfalso. revert E.
    unfold get_tfidf_embedding, try_except, raise, ret, random_rand.
    rewrite Hs. simpl. now destruct (fit_transform env text).
Qed.

(** With scikit-learn installed, [get_embedding] returns; its vector has
    512 components unless it is the provider's. *)
Lemma get_embedding_total self text w :
  SKLEARN_AVAILABLE env = true ->
  exists v w',
    get_embedding env self text w = (Ok v, w') /\
    (length v = 512%nat \/
     (available self = true /\
      embed_content env (api_calls w) text = Some v)).
Proof.
  intros Hs. unfold get_embedding, bind, try_except, call_provider, ret.
  destruct (available self) eqn:Ea.
  - destruct (embed_content env (api_calls w) text) as [v|] eqn:Ep.
    + exists v. eexists. split; [reflexivity|]. right. auto.
    + destruct (tfidf_total self text
                  (mkWorld (S (api_calls w)) (rng_pos w)) Hs)
        as (v & w' & -> & Hl).
      exists v, w'. auto.
  - destruct (tfidf_total self text w Hs) as (v & w' & -> & Hl).
    exists v, w'. auto.
Qed.

Hypothesis sklearn : SKLEARN_AVAILABLE env = true.
Hypothesis provider_512 :
  forall n text v, embed_content env n text = Some v -> length v = 512%nat.

Lemma get_embedding_512 self text w :
  exists v w', get_embedding env self text w = (Ok v, w') /\
               length v = 512%nat.
Proof.
  destruct (get_embedding_total self text w sklearn)
    as (v & w' & H & [Hl|[_ Hp]]); exists v, w'; split; auto.
  eapply provider_512; exact Hp.
Qed.

Lemma embed_512 emb text st :
  self st !! "embedder" = Some (AEmbedder emb) ->
  exists v w', embed env text st = (Ok v, mkState (self st) w') /\
               length v = 512%nat.
Proof.
  intros He. unfold embed, bind. rewrite (get_attr_ok _ _ _ He).
  unfold in_world.
  destruct (get_embedding_512 emb text (world st)) as (v & w' & -> & Hl).
  exists v, w'. auto.
Qed.

Lemma for_each_embed_512 emb chunks : forall st,
  self st !! "embedder" = Some (AEmbedder emb) ->
  exists vs w',
    for_each (embed env) chunks st = (Ok vs, mkState (self st) w') /\
    length vs = length chunks /\
    Forall (fun v => length v = 512%nat) vs.
Proof.
  induction chunks as [|c chunks IH]; intros st He; simpl.
  - exists [], (world st). destruct st. repeat split. constructor.
  - unfold bind at 1.
    destruct (embed_512 emb c st He) as (v & w1 & -> & Hl).
    unfold bind at 1.
    destruct (IH (mkState (self st) w1) He) as (vs & w2 & -> & Hn & Hall).
    exists (v :: vs), w2. simpl. repeat split; [congruence|].
    now constructor.
Qed.

Lemma upsert_points_all pts : forall col,
  Forall (fun p => length (vector p) = size col) pts ->
  upsert_points col pts
    = (Ok tt, mkCollection (size col) (foldl put (points col) pts)).
Proof.
  induction pts as [|p pts IH]; intros col Hall; simpl.
  - now destruct col.
  - inversion Hall as [|? ? Hp Hrest]; subst.
    rewrite Hp, Nat.eqb_refl. now rewrite IH.
Qed.

Lemma build_points_vectors n (vectors : list Embedder.vector) chunks
    metadata :
  Forall (fun v => length v = n) vectors ->
  Forall (fun p => length (vector p) = n)
         (build_points vectors chunks metadata).
Proof.
  intros Hall. apply Forall_lookup. intros i p.
  rewrite build_points_lookup.
  destruct (vectors !! i) as [v|] eqn:Ev; simpl; [|discriminate].
  destruct (chunks !! i); simpl; [intros [= <-] | discriminate]. simpl.
  eapply Forall_lookup in Hall; eauto.
Qed.

Lemma build_points_payloads (vectors : list Embedder.vector) chunks
    metadata :
  length vectors = length chunks ->
  map payload (build_points vectors chunks metadata)
    = chunk_payloads chunks metadata.
Proof.
  intros Hl. apply list_eq. intros i.
  unfold chunk_payloads. rewrite !lookup_map, build_points_lookup.
  rewrite enumerate_lookup.
  destruct (chunks !! i) as [c|] eqn:Ec.
  - destruct (vectors !! i) as [v|] eqn:Ev; [reflexivity|].
    apply lookup_ge_None in Ev. apply lookup_lt_Some in Ec. lia.
  - now destruct (vectors !! i).
Qed.

Lemma foldl_put_outside pts : forall m k,
  (forall j q, pts !! j = Some q -> id q = Z.of_nat j) ->
  (k < 0 \/ Z.of_nat (length pts) <= k) ->
  foldl put m pts !! k = m !! k.
Proof.
  induction pts as [|q pts IH] using rev_ind; intros m k Hid Hk;
    [reflexivity|].
  rewrite foldl_snoc. unfold put at 1. rewrite length_app in Hk. simpl in Hk.
  assert (Hq : id q = Z.of_nat (length pts)).
  { apply Hid. rewrite lookup_app_r by lia.
    now replace (length pts - length pts)%nat with 0%nat by lia. }
  rewrite lookup_insert_ne by lia.
  apply IH; [|lia].
  intros j r Hj. apply Hid. now apply lookup_app_l_Some.
Qed.

Lemma map_to_list_foldl_put pts :
  (forall j q, pts !! j = Some q -> id q = Z.of_nat j) ->
  map_to_list (foldl put ∅ pts) ≡ₚ map (fun p => (id p, p)) pts.
Proof.
  induction pts as [|q pts IH] using rev_ind; intros Hid.
  - simpl. now rewrite map_to_list_empty.
  - rewrite foldl_snoc, map_app. simpl. unfold put at 1.
    assert (Hid' : forall j r, pts !! j = Some r -> id r = Z.of_nat j).
    { intros j r Hj. apply Hid. now apply lookup_app_l_Some. }
    assert (Hq : id q = Z.of_nat (length pts)).
    { apply Hid. rewrite lookup_app_r by lia.
      now replace (length pts - length pts)%nat with 0%nat by lia. }
    rewrite map_to_list_insert.
    + rewrite (IH Hid'). apply Permutation_cons_append.
    + rewrite foldl_put_outside by (auto; lia). apply lookup_empty.
Qed.

Lemma insert_scored_perm x l : insert_scored x l ≡ₚ x :: l.
Proof.
  induction l as [|y l IH]; simpl; [reflexivity|].
  destruct (Qle_bool (score x) (score y)); [|reflexivity].
  rewrite IH. apply Permutation_swap.
Qed.

Lemma rank_perm l : rank l ≡ₚ l.
Proof.
  induction l as [|x l IH]; simpl; [reflexivity|].
  now rewrite insert_scored_perm, IH.
Qed.

(** What a search returns when the limit covers the collection. *)
Lemma search_all cl name col q k pts :
  reachable cl = true ->
  collections cl !! name = Some col ->
  length q = size col ->
  points col = foldl put ∅ pts ->
  (forall j p, pts !! j = Some p -> id p = Z.of_nat j) ->
  Z.of_nat (length pts) <= k ->
  exists results,
    search cl name q k = Ok results /\
    map sp_payload results ≡ₚ map payload pts.
Proof.
  intros Hr Hc Hq Hp Hid Hk. unfold search. rewrite Hr, Hc, Hq. simpl.
  rewrite Nat.eqb_refl. eexists. split; [reflexivity|].
  assert (Hperm : rank (map (score_point cl q) (map_to_list (points col)))
                  ≡ₚ map (score_point cl q) (map (fun p => (id p, p)) pts)).
  { rewrite rank_perm, Hp. apply Permutation_map.
    now apply map_to_list_foldl_put. }
  rewrite take_ge.
  - rewrite Hperm, !map_map. simpl. reflexivity.
  - rewrite (Permutation_length Hperm), !length_map. lia.
Qed.

(** X7. scikit-learn is installed, the provider, if it answers, answers
    with 512 components, and the store is reachable and has no
    collection of the given name yet. Then on the instance just built,
    [store_document] followed by [retrieve] with [top_k] at least the
    number of chunks returns, in some order, exactly the payloads built
    from the chunks: nothing is lost and nothing is added. *)
Theorem stored_chunks_are_retrieved connect url name key w c chunks
    metadata query top_k :
  connect url = Some c -> reachable c = true ->
  collections c !! name = None ->
  Z.of_nat (length chunks) <= top_k ->
  exists st1 recs st2,
    store_document env chunks metadata
      (mkState (init env connect url name key) w) = (Ok tt, st1) /\
    retrieve env query top_k st1 = (Ok recs, st2) /\
    recs ≡ₚ chunk_payloads chunks metadata.
Proof.
  intros Hconn Hr Hnone Hk.
  set (col0 := mkCollection 512 ∅).
  set (c0 := with_collections c (<[name := col0]> (collections c))).
  set (emb := Embedder.init env key).
  assert (Hinit : init env connect url name key
    = <["client" := AClient c0]>
        (<["embedder" := AEmbedder emb]>
           (<["collection" := AStr name]> (<["client" := AClient c]> ∅)))).
  { unfold init, get_collection, create_collection.
    rewrite Hconn, Hr, Hnone. reflexivity. }
  set (s0 := init env connect url name key) in *.
  assert (Hcl : s0 !! "client" = Some (AClient c0))
    by (rewrite Hinit; apply lookup_insert_eq).
  assert (Hnm : s0 !! "collection" = Some (AStr name)).
  { rewrite Hinit. rewrite !lookup_insert_ne by discriminate.
    apply lookup_insert_eq. }
  assert (Hem : s0 !! "embedder" = Some (AEmbedder emb)).
  { rewrite Hinit. rewrite lookup_insert_ne by discriminate.
    apply lookup_insert_eq. }
  destruct (for_each_embed_512 emb chunks (mkState s0 w) Hem)
    as (vs & w1 & Hfe & Hlen & Hall).
  cbn [self] in Hfe.
  set (pts := build_points vs chunks metadata).
  set (col1 := mkCollection 512 (foldl put ∅ pts)).
  set (c1 := with_collections c0 (<[name := col1]> (collections c0))).
  set (s1 := <["client" := AClient c1]> s0).
  assert (Hstore : store_document env chunks metadata (mkState s0 w)
                   = (Ok tt, mkState s1 w1)).
  { unfold store_document, bind.
    rewrite (get_attr_ok "client" (AClient c0) (mkState s0 w) Hcl).
    unfold try_except, store_document_try. unfold bind at 1. rewrite Hfe.
    unfold client_upsert, bind.
    rewrite (get_attr_ok "client" (AClient c0) (mkState s0 w1) Hcl).
    rewrite (get_attr_ok "collection" (AStr name) (mkState s0 w1) Hnm).
    unfold upsert. cbn [reachable c0 with_collections collections].
    rewrite Hr. cbn [negb]. rewrite lookup_insert_eq.
    rewrite upsert_points_all
      by (apply build_points_vectors; exact Hall).
    reflexivity. }
  assert (Hcl1 : s1 !! "client" = Some (AClient c1))
    by apply lookup_insert_eq.
  assert (Hnm1 : s1 !! "collection" = Some (AStr name))
    by (unfold s1; now rewrite lookup_insert_ne by discriminate).
  assert (Hem1 : s1 !! "embedder" = Some (AEmbedder emb))
    by (unfold s1; now rewrite lookup_insert_ne by discriminate).
  destruct (embed_512 emb query (mkState s1 w1) Hem1)
    as (v & w2 & Hq & Hv).
  cbn [self] in Hq.
  destruct (search_all c1 name col1 v top_k pts) as (results & Hs & Hperm).
  - exact Hr.
  - apply lookup_insert_eq.
  - exact Hv.
  - reflexivity.
  - intros j p. apply build_points_id.
  - unfold pts. rewrite <- (length_map payload), build_points_payloads
      by exact Hlen.
    unfold chunk_payloads. rewrite length_map.
    unfold enumerate. rewrite length_zip_with, length_map, length_seq. lia.
  - exists (mkState s1 w1), (map sp_payload results), (mkState s1 w2).
    split; [exact Hstore|]. split.
    + unfold retrieve, bind.
      rewrite (get_attr_ok "client" (AClient c1) (mkState s1 w1) Hcl1).
      unfold try_except, retrieve_try. unfold bind at 1. rewrite Hq.
      unfold bind.
      rewrite (get_attr_ok "client" (AClient c1) (mkState s1 w2) Hcl1).
      rewrite (get_attr_ok "collection" (AStr name) (mkState s1 w2) Hnm1).
      rewrite Hs. reflexivity.
    + rewrite Hperm. unfold pts. now rewrite build_points_payloads.
Qed.

End RoundTrip.

Lemma stored_chunks_are_retrieved_witness :
  exists st1 recs st2,
    VectorMemory.store_document Inputs.env_sklearn
      ["alpha"; "beta"; "gamma"]%string Inputs.notes_metadata
      (Inputs.fresh Inputs.env_sklearn Inputs.connect_memory) = (Ok tt, st1) /\
    VectorMemory.retrieve Inputs.env_sklearn "beta" 5 st1 = (Ok recs, st2) /\
    recs ≡ₚ VectorMemory.chunk_payloads ["alpha"; "beta"; "gamma"]%string
              Inputs.notes_metadata.
Proof.
  apply (stored_chunks_are_retrieved Inputs.env_sklearn eq_refl
           ltac:(discriminate) Inputs.connect_memory ":memory:"
           "exam_chunks" None Inputs.w0 Inputs.memory_client).
  - reflexivity.
  - reflexivity.
  - reflexivity.
  - vm_compute; congruence.
Defined.

(** ** VectorMemory and the embedder: degraded paths *)

Section DegradedPaths.

Import VectorMemory Inputs Controller.

Variable env : Env.

(** X8. With scikit-learn installed [get_embedding] always returns; the
    vector has 512 components unless it is the provider's answer, handed
    on unchanged; and one call of [get_embedding] makes at most one call
    to the provider. *)
Theorem get_embedding_returns_with_sklearn self text w :
  SKLEARN_AVAILABLE env = true ->
  exists v w',
    get_embedding env self text w = (Ok v, w') /\
    (length v = 512%nat \/
     (available self = true /\
      embed_content env (api_calls w) text = Some v)) /\
    (api_calls w <= api_calls w' <= S (api_calls w))%nat.
Proof.
  intros Hs.
  destruct (get_embedding_total env self text w Hs) as (v & w' & H & Hv).
  exists v, w'. split; [exact H|]. split; [exact Hv|].
  revert H. unfold get_embedding, bind, try_except, call_provider, ret,
    get_tfidf_embedding, raise, random_rand.
  rewrite Hs. simpl.
  destruct (available self);
    [destruct (embed_content env (api_calls w) text)|];
    destruct (fit_transform env text); intros [= _ <-]; simpl; lia.
Qed.

Lemma unavailable_no_call self text w :
  available self = false ->
  api_calls (snd (get_embedding env self text w)) = api_calls w.
Proof.
  intros Ha. unfold get_embedding, bind, ret, get_tfidf_embedding,
    try_except, raise, random_rand.
  rewrite Ha.
  destruct (negb (SKLEARN_AVAILABLE env)); [reflexivity|].
  now destruct (fit_transform env text).
Qed.

(** X9. Without a key (neither the argument nor the environment
    variable holds a non-empty string), or without the provider's
    package, the embedder is not available and [get_embedding] makes no
    call to the provider. *)
Theorem no_key_no_provider_call key text w :
  (str_truthy key = false /\ str_truthy (GOOGLE_API_KEY env) = false) \/
  GEMINI_AVAILABLE env = false ->
  available (Embedder.init env key) = false /\
  api_calls (snd (get_embedding env (Embedder.init env key) text w))
    = api_calls w.
Proof.
  intros H.
  assert (Ha : available (Embedder.init env key) = false).
  { unfold Embedder.init. destruct H as [[Hk He]|Hg].
    - rewrite Hk. destruct (GOOGLE_API_KEY env) as [k|]; [|reflexivity].
      now rewrite He.
    - destruct (if str_truthy key then key else GOOGLE_API_KEY env) as [k|];
        [|reflexivity].
      destruct (negb (str_truthy (Some k))); [reflexivity|].
      now rewrite Hg. }
  split; [exact Ha | now apply unavailable_no_call].
Qed.

(** X10. When the store can be reached, [__init__] keeps the client it
    got: a collection of the given name that already exists is left as
    it is, with its size and its points; a missing one is created empty
    with size 512; the other collections are untouched, and no fallback
    list is set. *)
Theorem init_keeps_existing_collection connect url name key c :
  connect url = Some c -> reachable c = true ->
  exists c',
    init env connect url name key !! "client" = Some (AClient c') /\
    init env connect url name key !! "_fallback_storage" = None /\
    collections c' !! name
      = Some (default (mkCollection 512 ∅) (collections c !! name)) /\
    forall other, other <> name ->
      collections c' !! other = collections c !! other.
Proof.
  intros Hc Hr. unfold init, get_collection, create_collection.
  rewrite Hc, Hr. cbv beta iota zeta. cbn [negb].
  destruct (collections c !! name) as [col|] eqn:E; cbv beta iota zeta.
  - exists c. split.
    + rewrite !lookup_insert_ne by discriminate. apply lookup_insert_eq.
    + split; [now rewrite !lookup_insert_ne by discriminate|].
      rewrite E. auto.
  - eexists. split; [apply lookup_insert_eq|].
    split; [now rewrite !lookup_insert_ne by discriminate|].
    cbn [with_collections collections]. rewrite lookup_insert_eq.
    split; [reflexivity|].
    intros other Hne. now rewrite lookup_insert_ne by congruence.
Qed.

(** *** A provider whose vectors do not fit the collection *)






(** *** Retrieval in fallback mode and its use by the controller *)

Lemma fallback_record_text metadata ic :
  fallback_record metadata ic !! "text" = Some (VStr (snd ic)).
Proof.
  unfold fallback_record. rewrite lookup_insert_ne by discriminate.
  apply lookup_singleton_eq.
Qed.

Lemma fallback_records_texts chunks metadata :
  Forall2 (fun r c => r !! "text" = Some (VStr c))
          (fallback_records chunks metadata) chunks.
Proof.
  unfold fallback_records. apply Forall2_same_length_lookup. split.
  - unfold enumerate. rewrite length_map, length_zip_with, length_map,
      length_seq. lia.
  - intros i r c Hr Hc. rewrite lookup_map, enumerate_lookup, Hc in Hr.
    injection Hr as <-. apply fallback_record_text.
Qed.

Lemma stored_records_texts cs :
  Forall2 (fun r c => r !! "text" = Some (VStr c))
          (stored_records cs) (stored_chunks cs).
Proof.
  unfold stored_records, stored_chunks.
  induction cs as [|[chunks metadata|query top_k] cs IH]; simpl.
  - constructor.
  - apply Forall2_app; [apply fallback_records_texts | exact IH].
  - exact IH.
Qed.

Lemma texts_of_records recs chunks :
  Forall2 (fun r c => r !! "text" = Some (VStr c)) recs chunks ->
  texts recs = Some (map VStr chunks).
Proof.
  induction 1 as [|r c recs chunks Hr _ IH]; simpl; [reflexivity|].
  now rewrite Hr, IH.
Qed.

Lemma prefix_take {A} (l : list A) (n : nat) :
  prefix l (Z.of_nat n) = take n l.
Proof.
  unfold prefix, adjust.
  destruct (Z.ltb_spec (Z.of_nat n) 0) as [Hlt|_]; [lia|].
  destruct (Z.min_spec (Z.of_nat n) (Z.of_nat (length l))) as [[H ->]|[H ->]].
  - now rewrite Nat2Z.id.
  - rewrite Nat2Z.id, !take_ge by lia. reflexivity.
Qed.

(** X12. In fallback mode [retrieve] ignores the query: after any
    sequence of calls on an instance built while the store was
    unreachable, it returns the first [top_k] records ever stored; and
    the first statements of [generate_exam] end with the texts of the
    first 50 chunks stored, or with the "no relevant content" error
    when none was stored, never with a missing ['text'] key. *)
Theorem degraded_retrieval_ignores_query connect url name key w cs query :
  (forall c, connect url = Some c -> reachable c = false) ->
  (forall top_k,
     retrieve env query top_k
       (snd (run_calls env cs (mkState (init env connect url name key) w)))
     = (Ok (prefix (stored_records cs) top_k),
        snd (run_calls env cs (mkState (init env connect url name key) w))))
  /\
  relevant_chunks env query
    (snd (run_calls env cs (mkState (init env connect url name key) w)))
  = (Ok (match stored_chunks cs with
         | [] => NoRelevantContent
         | _ => Chunks (map VStr (take 50 (stored_chunks cs)))
         end),
     snd (run_calls env cs (mkState (init env connect url name key) w))).
Proof.
  intros Hun.
  destruct (run_calls_fallback env cs
              (mkState (init env connect url name key) w) []
              (init_unreachable env connect url name key Hun))
    as (_ & Hin).
  simpl in Hin.
  assert (Hret : forall top_k,
     retrieve env query top_k
       (snd (run_calls env cs (mkState (init env connect url name key) w)))
     = (Ok (prefix (stored_records cs) top_k),
        snd (run_calls env cs (mkState (init env connect url name key) w))))
    by (intros top_k; now apply fallback_retrieve_ok).
  split; [exact Hret|].
  unfold relevant_chunks. rewrite Hret.
  change 50 with (Z.of_nat 50). rewrite prefix_take.
  rewrite (texts_of_records (take 50 (stored_records cs))
             (take 50 (stored_chunks cs)))
    by (apply Forall2_take, stored_records_texts).
  destruct (stored_chunks cs); reflexivity.
Qed.

End DegradedPaths.

Lemma get_embedding_returns_with_sklearn_witness :
  exists v w',
    get_embedding Inputs.env_gemini (Embedder.init Inputs.env_gemini None)
      "hello" Inputs.w0 = (Ok v, w') /\
    api_calls w' = 1%nat.
Proof.
  destruct (get_embedding_returns_with_sklearn Inputs.env_gemini
              (Embedder.init Inputs.env_gemini None) "hello" Inputs.w0
              eq_refl) as (v & w' & H & _ & _).
  exists v, w'. split; [exact H|].
  vm_compute in H. injection H as _ <-. reflexivity.
Defined.

Lemma no_key_no_provider_call_witness :
  available (Embedder.init Inputs.env_sklearn (Some ""%string)) = false /\
  api_calls (snd (get_embedding Inputs.env_sklearn
                    (Embedder.init Inputs.env_sklearn (Some ""%string))
                    "hello" Inputs.w0)) = 0%nat.
Proof.
  apply (no_key_no_provider_call Inputs.env_sklearn (Some ""%string)
           "hello" Inputs.w0).
  left. split; reflexivity.
Defined.

Lemma init_keeps_existing_collection_witness :
  exists c',
    VectorMemory.init Inputs.env_plain Inputs.connect_memory ":memory:"
      "exam_chunks" None !! "client" = Some (VectorMemory.AClient c') /\
    collections c' !! "exam_chunks" = Some (mkCollection 512 ∅).
Proof.
  destruct (init_keeps_existing_collection Inputs.env_plain
              Inputs.connect_memory ":memory:" "exam_chunks" None
              Inputs.memory_client eq_refl eq_refl)
    as (c' & H1 & _ & H2 & _).
  exists c'. split; [exact H1 | exact H2].
Defined.


Lemma degraded_retrieval_ignores_query_witness :
  (forall c, Inputs.connect_offline ":memory:" = Some c ->
             reachable c = false) /\
  Controller.relevant_chunks Inputs.env_plain "anything"
    (snd (VectorMemory.run_calls Inputs.env_plain
            [VectorMemory.StoreDocument ["alpha"; "beta"]%string
               Inputs.notes_metadata]
            (Inputs.fresh Inputs.env_plain Inputs.connect_offline)))
  = (Ok (Controller.Chunks [VStr "alpha"; VStr "beta"]),
     snd (VectorMemory.run_calls Inputs.env_plain
            [VectorMemory.StoreDocument ["alpha"; "beta"]%string
               Inputs.notes_metadata]
            (Inputs.fresh Inputs.env_plain Inputs.connect_offline))).
Proof.
  assert (H : forall c, Inputs.connect_offline ":memory:" = Some c ->
                        reachable c = false)
    by (intros c [= <-]; reflexivity).
  split; [exact H|].
  exact (proj2 (degraded_retrieval_ignores_query Inputs.env_plain
                  Inputs.connect_offline ":memory:" "exam_chunks" None
                  Inputs.w0
                  [VectorMemory.StoreDocument ["alpha"; "beta"]%string
                     Inputs.notes_metadata]
                  "anything" H)).
Defined.

(** ** PDFIngestor: cleaning and ingestion *)

Section IngestorFacts.

Import Ingestor.

Lemma collapse_chars b s :
  Forall (fun c => isspace c = false \/ c = " "%char) (collapse_from b s).
Proof.
  revert b. induction s as [|c s IH]; intros b; simpl; [constructor|].
  destruct (isspace c) eqn:E.
  - destruct b; [apply IH | constructor; [now right | apply IH]].
  - constructor; [now left | apply IH].
Qed.

Lemma split_char_absent sep s :
  Forall (fun c => Ascii.eqb c sep = false) s -> split_char sep s = [s].
Proof.
  induction 1 as [|c s Hc _ IH]; simpl; [reflexivity|].
  now rewrite Hc, IH.
Qed.

(** After the whitespace runs are replaced there is no line break left:
    the text is one line. *)
Lemma collapse_one_line s :
  split_char "010"%char (collapse_ws s) = [collapse_ws s].
Proof.
  apply split_char_absent. unfold collapse_ws.
  eapply Forall_impl; [apply collapse_chars|].
  intros c [H| ->]; [|reflexivity].
  destruct (Ascii.eqb_spec c "010"%char) as [->|]; [discriminate H|].
  reflexivity.
Qed.

Lemma clean_text_line text :
  clean_text text
  = if truthy (cleaned_line text) && kept (cleaned_line text)
    then cleaned_line text else [].
Proof.
  unfold clean_text, cleaned_line, kept.
  destruct text as [|c text]; [reflexivity|].
  cbn [truthy negb]. rewrite collapse_one_line.
  set (line := strip (collapse_ws (remove_markers (c :: text)))).
  cbn [filter_lines]. fold line.
  rewrite (bool_decide_eq_false_2 (line ∈ [])) by apply not_elem_of_nil.
  destruct (truthy line); [|reflexivity]. cbn [andb negb].
  destruct (negb (isupper line && (len line <? 100))); [|reflexivity].
  destruct (negb (search_page_indicator (lower line))); reflexivity.
Qed.

Lemma collapse_length b s :
  (length (collapse_from b s) <= length s)%nat.
Proof.
  revert b. induction s as [|c s IH]; intros b; simpl; [lia|].
  pose proof (IH true). pose proof (IH false).
  destruct (isspace c); [destruct b|]; simpl; lia.
Qed.

Lemma collapse_idem_both s :
  (forall b, collapse_from false (collapse_from b s) = collapse_from b s) /\
  collapse_from true (collapse_from true s) = collapse_from true s.
Proof.
  induction s as [|c s [IH1 IH2]]; [split; [intros []|]; reflexivity|].
  split.
  - intros b. simpl. destruct (isspace c) eqn:E.
    + destruct b; [apply IH1|].
      simpl. now rewrite IH2.
    + simpl. rewrite E. now rewrite IH1.
  - simpl. destruct (isspace c) eqn:E; [exact IH2|].
    simpl. rewrite E. now rewrite IH1.
Qed.

Lemma collapse_true_fixed s :
  collapse_from true s = s -> collapse_from false s = s.
Proof.
  destruct s as [|d s]; [reflexivity|]. simpl.
  destruct (isspace d); [|trivial].
  intros H. apply (f_equal (@length ascii)) in H.
  pose proof (collapse_length true s). simpl in H. lia.
Qed.

Lemma normal_tail c s :
  collapse_from false (c :: s) = c :: s -> collapse_from false s = s.
Proof.
  simpl. destruct (isspace c).
  - intros [= _ H]. now apply collapse_true_fixed.
  - now intros [= H].
Qed.

Lemma normal_suffix pre s :
  collapse_from false (pre ++ s) = pre ++ s -> collapse_from false s = s.
Proof.
  induction pre as [|c pre IH]; [trivial|].
  intros H. apply IH. now apply (normal_tail c).
Qed.

Lemma collapse_app b s t :
  exists b', collapse_from b (s ++ t)
             = collapse_from b s ++ collapse_from b' t.
Proof.
  revert b. induction s as [|c s IH]; intros b; simpl; [now exists b|].
  destruct (isspace c).
  - destruct (IH true) as [b' ->]. destruct b; now exists b'.
  - destruct (IH false) as [b' ->]. now exists b'.
Qed.

Lemma normal_prefix s post :
  collapse_from false (s ++ post) = s ++ post -> collapse_from false s = s.
Proof.
  destruct (collapse_app false s post) as [b' ->]. intros H.
  pose proof (collapse_length false s).
  pose proof (collapse_length b' post).
  assert (Hl : length (collapse_from false s) = length s).
  { apply (f_equal (@length ascii)) in H. rewrite !length_app in H. lia. }
  now apply app_inj_1 in H as [H _].
Qed.

Lemma rstrip_prefix s : exists post, s = rstrip s ++ post.
Proof.
  unfold rstrip. destruct (lstrip_suffix (rev s)) as [pre H].
  exists (rev pre). rewrite <- rev_app_distr, <- H. now rewrite rev_involutive.
Qed.

Lemma strip_normal s :
  collapse_from false s = s -> collapse_from false (strip s) = strip s.
Proof.
  intros H. unfold strip.
  destruct (lstrip_suffix s) as [pre Hpre].
  destruct (rstrip_prefix (lstrip s)) as [post Hpost].
  rewrite Hpre in H. apply normal_suffix in H.
  rewrite Hpost in H. now apply normal_prefix in H.
Qed.

Lemma cleaned_line_normal text :
  strip (cleaned_line text) = cleaned_line text /\
  collapse_ws (cleaned_line text) = cleaned_line text.
Proof.
  unfold cleaned_line. split; [apply strip_idem|].
  apply strip_normal. apply (proj1 (collapse_idem_both _)).
Qed.

(** X13. [clean_text] is all or nothing. The whitespace replacement
    leaves no line break, so the loop over the lines sees a single
    line: the text with the page markers removed, every run of
    whitespace replaced by one space, and trimmed. The result is that
    line, or the empty string when the line is empty, is upper-case and
    shorter than 100 characters, or contains a page indicator
    anywhere. *)
Theorem clean_text_all_or_nothing text :
  clean_text text
  = if truthy (cleaned_line text)
       && negb (isupper (cleaned_line text)
                && (len (cleaned_line text) <? 100))
       && negb (search_page_indicator (lower (cleaned_line text)))
    then strip (collapse_ws (remove_markers text))
    else [].
Proof.
  rewrite clean_text_line. unfold kept, cleaned_line.
  now rewrite andb_assoc.
Qed.

Lemma clean_text_normal text :
  strip (clean_text text) = clean_text text /\
  collapse_ws (clean_text text) = clean_text text.
Proof.
  rewrite clean_text_line.
  destruct (truthy (cleaned_line text) && kept (cleaned_line text));
    [apply cleaned_line_normal | split; reflexivity].
Qed.

(** X14. The result of [clean_text] is normalised: trimming it or
    replacing its whitespace runs again changes nothing, so it has no
    leading or trailing whitespace, no whitespace other than the space,
    and no two spaces in a row. *)
Theorem clean_text_normalised text :
  strip (clean_text text) = clean_text text /\
  collapse_ws (clean_text text) = clean_text text.
Proof. apply clean_text_normal. Qed.

Lemma strip_head_kept c s :
  isspace c = false -> exists r, strip (c :: s) = c :: r.
Proof.
  intros H. unfold strip. rewrite lstrip_fixed by exact H.
  rewrite rstrip_cons by exact H. eauto.
Qed.

(** The first iteration on a text that starts with a character other
    than whitespace emits a chunk. *)
Lemma loop_first_chunk fuel self c text r :
  isspace c = false -> 0 < chunk_size self ->
  loop fuel self (c :: text) 0 [] = Some r -> r <> [].
Proof.
  intros Hc Hs. destruct fuel as [|fuel]; [discriminate|]. cbn [loop].
  assert (Hl : 0 < len (c :: text)) by (unfold len; simpl; lia).
  replace (0 <? len (c :: text)) with true by lia.
  pose proof (cut_bounds self (c :: text) 0 ltac:(lia) Hs) as Hb.
  pose proof (cut_le_len self (c :: text) 0 ltac:(lia)) as Hle.
  assert (He : exists ch, emit (c :: text) 0 (cut self (c :: text) 0) []
                          = [ch]).
  { unfold emit, slice. rewrite !adjust_inside by lia.
    replace (Z.to_nat (cut self (c :: text) 0 - 0))
      with (S (Z.to_nat (cut self (c :: text) 0 - 1))) by lia.
    simpl drop. simpl take.
    destruct (strip_head_kept c
                (take (Z.to_nat (cut self (c :: text) 0 - 1)) text) Hc)
      as [r' ->].
    simpl. eauto. }
  destruct He as [ch He]. rewrite He.
  destruct (cut self (c :: text) 0 >=? len (c :: text));
    [intros [= <-]; discriminate|].
  intros H. apply loop_length in H. simpl in H.
  destruct r; [simpl in H; lia | discriminate].
Qed.

(** X15. With [0 <= chunk_overlap < chunk_size], when [ingest] returns
    it returns at least one chunk, and every chunk is non-empty, trimmed
    and within the splitter's size. *)
Theorem ingest_returns_chunks fuel self extracted ocr chunks :
  0 <= chunk_overlap (splitter self) < chunk_size (splitter self) ->
  ingest fuel self extracted ocr = Some (Ok chunks) ->
  chunks <> [] /\ Forall (fragment_ok (splitter self)) chunks.
Proof.
  intros Hc. unfold ingest.
  set (text := match extracted with
               | Some t => if negb (truthy t) || (len (strip t) <? 200)
                           then ocr else t
               | None => ocr
               end).
  destruct (negb (truthy text) || (len (strip text) <? 100));
    [discriminate|].
  destruct (len (clean_text text) <? 100) eqn:El; [discriminate|].
  destruct (split_text fuel (splitter self) (clean_text text))
    as [r|] eqn:Es; [|discriminate].
  intros [= <-]. split.
  - pose proof (proj1 (clean_text_normal text)) as Hn.
    unfold split_text in Es.
    destruct (clean_text text) as [|c rest] eqn:Ec;
      [vm_compute in El; discriminate El|].
    cbn [truthy] in Es.
    assert (Hsp : isspace c = false).
    { pose proof (lstrip_head (c :: rest)) as Hh.
      unfold strip in Hn.
      destruct (isspace c) eqn:E; [|reflexivity].
      exfalso. simpl in Hn. rewrite E in Hn.
      apply (f_equal (@length ascii)) in Hn.
      pose proof (rstrip_length (lstrip rest)).
      pose proof (lstrip_length rest). simpl in Hn. lia. }
    apply (loop_first_chunk fuel (splitter self) c rest r Hsp); [lia|].
    exact Es.
  - unfold split_text in Es.
    destruct (truthy (clean_text text)); [|injection Es as <-; constructor].
    eapply loop_ok; [| |constructor|exact Es]; lia.
Qed.

(** X16. The extracted text has at least 200 characters once trimmed.
    A page indicator anywhere in it ("page 12", "3 of 5", in any letter
    case) makes [clean_text] return the empty string and [ingest] raise
    [ValueError], however long the text is. *)
Theorem page_indicator_rejects_document fuel self t ocr :
  200 <= len (strip t) ->
  search_page_indicator (lower (cleaned_line t)) = true ->
  clean_text t = [] /\
  ingest fuel self (Some t) ocr = Some (Raise ValueError).
Proof.
  intros Hl Hs.
  assert (Hc : clean_text t = []).
  { rewrite clean_text_line. unfold kept. rewrite Hs.
    now rewrite !andb_false_r. }
  split; [exact Hc|]. unfold ingest.
  assert (Ht : truthy t = true).
  { destruct t; [|reflexivity]. unfold len in Hl. simpl in Hl. lia. }
  rewrite Ht. cbn [negb orb].
  replace (len (strip t) <? 200) with false by lia.
  rewrite Ht. cbn [negb orb].
  replace (len (strip t) <? 100) with false by lia.
  now rewrite Hc.
Qed.

End IngestorFacts.

Lemma ingest_returns_chunks_witness :
  exists chunks,
    Ingestor.ingest 1 (Ingestor.init 512 64) (Some Inputs.lorem) []
      = Some (Ok chunks) /\
    chunks <> [].
Proof.
  exists [Ingestor.clean_text Inputs.lorem].
  split; [vm_compute; reflexivity|].
  apply (ingest_returns_chunks 1 (Ingestor.init 512 64) (Some Inputs.lorem)
           [] [Ingestor.clean_text Inputs.lorem]).
  - vm_compute; split; congruence.
  - vm_compute; reflexivity.
Defined.

Lemma page_indicator_rejects_document_witness :
  200 <= len (strip Inputs.lorem_with_reference) /\
  Ingestor.ingest 1 (Ingestor.init 512 64)
    (Some Inputs.lorem_with_reference) [] = Some (Raise ValueError).
Proof.
  split; [vm_compute; congruence|].
  apply (page_indicator_rejects_document 1 (Ingestor.init 512 64)
           Inputs.lorem_with_reference []).
  - vm_compute; congruence.
  - vm_compute; reflexivity.
Defined.

(** ** PDFIngestor: the page markers do not survive cleaning *)

Section PageMarkers.

Import Ingestor.

Lemma starts_with_length p : forall s,
  starts_with p s = true -> (length p <= length s)%nat.
Proof.
  induction p as [|a p IH]; intros s; simpl; [lia|].
  destruct s as [|b s]; [discriminate|].
  intros H. apply andb_true_iff in H as [_ H]. apply IH in H. simpl. lia.
Qed.

Lemma starts_with_app p s : starts_with p (p ++ s) = true.
Proof.
  induction p as [|a p IH]; simpl; [reflexivity|].
  now rewrite Ascii.eqb_refl, IH.
Qed.

(** A pattern without line break matches before a line break as it
    matches at the end of the text. *)
Lemma starts_with_newline p : forall s b,
  Forall (fun a => Ascii.eqb a newline = false) p ->
  starts_with p (s ++ newline :: b) = starts_with p s.
Proof.
  induction p as [|a p IH]; intros s b Hp; [reflexivity|].
  inversion Hp as [|? ? Ha Hp']; subst.
  destruct s as [|c s]; simpl.
  - now rewrite Ha.
  - now rewrite IH.
Qed.

Lemma span_newline f : forall s b,
  f newline = false -> span f (s ++ newline :: b) = span f s.
Proof.
  induction s as [|c s IH]; intros b Hf; simpl; [now rewrite Hf|].
  destruct (f c); [now rewrite IH | reflexivity].
Qed.

Lemma span_length f s : (span f s <= length s)%nat.
Proof.
  induction s as [|c s IH]; simpl; [lia|]. destruct (f c); simpl; lia.
Qed.

Lemma match_marker_newline s b :
  match_marker (s ++ newline :: b) = match_marker s /\
  forall n, match_marker s = Some n -> (n <= length s)%nat.
Proof.
  unfold match_marker.
  rewrite starts_with_newline by (repeat constructor).
  destruct (starts_with (of_string "--- Page ") s) eqn:E;
    [|split; [reflexivity | discriminate]].
  apply starts_with_length in E. change (length (of_string "--- Page "))
    with 9%nat in E.
  rewrite drop_app_le by lia.
  rewrite span_newline by reflexivity.
  pose proof (span_length isdigit (drop 9 s)) as Hsp.
  rewrite drop_app_le by exact Hsp.
  rewrite starts_with_newline by (repeat constructor).
  split; [reflexivity|].
  intros n.
  destruct (1 <=? span isdigit (drop 9 s))%nat; [|discriminate].
  destruct (starts_with (of_string " ---")
              (drop (span isdigit (drop 9 s)) (drop 9 s))) eqn:E2;
    [|discriminate].
  intros [= <-]. apply starts_with_length in E2.
  change (length (of_string " ---")) with 4%nat in E2.
  rewrite !length_drop in E2. rewrite length_drop in Hsp. lia.
Qed.

(** A line break cuts the substitution in two. *)
Lemma remove_markers_newline a : forall k b,
  (k <= length a)%nat ->
  remove_markers_from k (a ++ newline :: b)
  = remove_markers_from k a ++ newline :: remove_markers_from 0 b.
Proof.
  induction a as [|c a IH]; intros k b Hk.
  - destruct k; [reflexivity | simpl in Hk; lia].
  - destruct k as [|k]; cbn [app remove_markers_from].
    + change (c :: a ++ newline :: b) with ((c :: a) ++ newline :: b).
      destruct (match_marker_newline (c :: a) b) as [-> Hn].
      destruct (match_marker (c :: a)) as [n|] eqn:E.
      * specialize (Hn n eq_refl). simpl in Hn.
        assert (n <> 0)%nat.
        { intros ->. unfold match_marker in E.
          destruct (starts_with _ _); [|discriminate].
          destruct (_ && _); discriminate. }
        apply IH. lia.
      * cbn [app]. now rewrite IH by lia.
    + apply IH. simpl in Hk. lia.
Qed.

Lemma remove_markers_skip s : forall k,
  remove_markers_from k s = remove_markers_from 0 (drop k s).
Proof.
  induction s as [|c s IH]; intros k; [now destruct k|].
  destruct k as [|k]; [reflexivity|]. cbn [remove_markers_from drop].
  apply IH.
Qed.

Lemma remove_markers_match s n :
  match_marker s = Some n ->
  remove_markers s = remove_markers (drop n s).
Proof.
  unfold remove_markers. destruct s as [|c s]; [discriminate|].
  intros H. cbn [remove_markers_from]. rewrite H.
  assert (n <> 0)%nat.
  { intros ->. unfold match_marker in H.
    destruct (starts_with _ _); [|discriminate].
    destruct (_ && _); discriminate. }
  rewrite remove_markers_skip.
  destruct n as [|n]; [congruence|]. cbn [drop].
  now replace (S n - 1)%nat with n by lia.
Qed.

Lemma decimal_digits_spec fuel : forall n,
  (0 < fuel)%nat ->
  decimal_digits fuel n <> [] /\
  Forall (fun c => isdigit c = true) (decimal_digits fuel n).
Proof.
  induction fuel as [|fuel IH]; intros n Hf; [lia|].
  cbn [decimal_digits].
  destruct (n <? 10)%nat eqn:E.
  - split; [discriminate|]. constructor; [|constructor].
    apply Nat.ltb_lt in E.
    do 10 (destruct n as [|n]; [reflexivity|]). lia.
  - split; [destruct (decimal_digits fuel (n / 10)); discriminate|].
    apply Forall_app. split.
    + destruct fuel; [constructor | apply IH; lia].
    + constructor; [|constructor].
      pose proof (Nat.mod_upper_bound n 10 ltac:(lia)) as Hm.
      destruct (n mod 10)%nat as [|m]; [reflexivity|].
      do 9 (destruct m as [|m]; [reflexivity|]). lia.
Qed.

Lemma span_digits d : forall rest,
  Forall (fun c => isdigit c = true) d ->
  first_is isdigit rest = false ->
  span isdigit (d ++ rest) = length d.
Proof.
  induction d as [|c d IH]; intros rest Hd Hr; cbn [app span length].
  - destruct rest as [|r rest]; [reflexivity|].
    cbn [first_is] in Hr. cbn [span]. now rewrite Hr.
  - inversion Hd as [|? ? Hc Hd']; subst. rewrite Hc. now rewrite IH.
Qed.

(** The marker written for a page is matched whole. *)
Lemma match_marker_block n rest :
  match_marker (of_string "--- Page " ++ decimal n ++ of_string " ---"
                ++ rest)
  = Some (9 + length (decimal n) + 4)%nat.
Proof.
  unfold match_marker. rewrite starts_with_app. cbv zeta.
  assert (Hdrop : drop 9 (of_string "--- Page " ++ decimal n
                          ++ of_string " ---" ++ rest)
                  = decimal n ++ of_string " ---" ++ rest) by reflexivity.
  rewrite !Hdrop.
  destruct (decimal_digits_spec (S n) n ltac:(lia)) as [Hne Hd].
  fold (decimal n) in Hne, Hd.
  rewrite !span_digits by (exact Hd || reflexivity).
  rewrite drop_app_length, starts_with_app.
  destruct (decimal n); [congruence | reflexivity].
Qed.

Lemma remove_markers_block n rest :
  remove_markers (of_string "--- Page " ++ decimal n ++ of_string " ---"
                  ++ rest)
  = remove_markers rest.
Proof.
  rewrite (remove_markers_match _ _ (match_marker_block n rest)).
  f_equal. rewrite !app_assoc.
  replace (9 + length (decimal n) + 4)%nat
    with (length ((of_string "--- Page " ++ decimal n) ++ of_string " ---"))
    by (rewrite !length_app; reflexivity).
  apply drop_app_length.
Qed.

Lemma remove_markers_page_block text page_num page_text :
  remove_markers (text ++ page_block page_num page_text)
  = remove_markers text ++ newline :: newline :: remove_markers page_text.
Proof.
  unfold page_block, remove_markers.
  rewrite remove_markers_newline by lia. f_equal. f_equal.
  fold (remove_markers
          (of_string "--- Page " ++ decimal (page_num + 1)
           ++ of_string " ---" ++ "010"%char :: page_text)).
  rewrite remove_markers_block. reflexivity.
Qed.

Lemma remove_markers_extract pages : forall page_num text,
  remove_markers (extract_pages page_num pages text)
  = remove_markers text
    ++ concat (map (fun p => newline :: newline :: remove_markers p)
                   (kept_pages pages)).
Proof.
  induction pages as [|[p|] pages IH]; intros page_num text; simpl.
  - now rewrite app_nil_r.
  - destruct (truthy (strip p)); [|apply IH].
    rewrite IH, remove_markers_page_block. simpl.
    now rewrite <- app_assoc.
  - apply IH.
Qed.

(** X17. The markers [--- Page N ---] that [extract_text] writes between
    the pages are all removed by the first substitution of
    [clean_text]: what is left is, for every page kept, two line breaks
    followed by the page text treated as it would be on its own. So
    the line [clean_text] works on is made of the page texts only. *)
Theorem page_markers_are_removed pages :
  remove_markers (extract_pages 0 pages [])
  = concat (map (fun p => newline :: newline :: remove_markers p)
                (kept_pages pages)) /\
  cleaned_line (extract_pages 0 pages [])
  = strip (collapse_ws
             (concat (map (fun p => newline :: newline :: remove_markers p)
                          (kept_pages pages)))).
Proof.
  assert (H : remove_markers (extract_pages 0 pages [])
              = concat (map (fun p => newline :: newline :: remove_markers p)
                            (kept_pages pages)))
    by (now rewrite remove_markers_extract).
  split; [exact H|]. unfold cleaned_line. now rewrite H.
Qed.

End PageMarkers.

(** ** The paragraph chunker: no word is lost *)

Section ChunkerFacts.

Import Chunker.

Lemma words_word_sep w : forall sp rest,
  is_word w -> isspace sp = true ->
  words (w ++ sp :: rest) = w :: words rest.
Proof.
  induction w as [|c w IH]; intros sp rest [Hne Hall] Hsp; [congruence|].
  inversion Hall as [|? ? Hc Hw]; subst. simpl. rewrite Hc.
  destruct w as [|d w].
  - simpl. now rewrite Hsp.
  - inversion Hw as [|? ? Hd _]; subst. cbn [app nonspace_head].
    rewrite Hd. cbn [negb].
    change (d :: w ++ sp :: rest) with ((d :: w) ++ sp :: rest).
    rewrite IH; [reflexivity | split; [discriminate | exact Hw] | exact Hsp].
Qed.

Lemma words_single w : is_word w -> words w = [w].
Proof.
  induction w as [|c w IH]; intros [Hne Hall]; [congruence|].
  inversion Hall as [|? ? Hc Hw]; subst. simpl. rewrite Hc.
  destruct w as [|d w]; [reflexivity|].
  inversion Hw as [|? ? Hd _]; subst. cbn [nonspace_head]. rewrite Hd.
  cbn [negb]. rewrite IH; [reflexivity | split; [discriminate | exact Hw]].
Qed.

(** Splitting the words joined by single spaces gives the words back. *)
Lemma words_join ws :
  Forall is_word ws ->
  words (Ingestor.join (of_string " ") ws) = ws.
Proof.
  induction 1 as [|w ws Hw Hws IH]; [reflexivity|].
  destruct ws as [|w' ws]; [now apply words_single|].
  change (Ingestor.join (of_string " ") (w :: w' :: ws))
    with (w ++ " "%char :: Ingestor.join (of_string " ") (w' :: ws)).
  rewrite words_word_sep by (exact Hw || reflexivity). now rewrite IH.
Qed.

Lemma words_are_words s : Forall is_word (words s).
Proof.
  induction s as [|c s IH]; simpl; [constructor|].
  destruct (isspace c) eqn:Ec; [exact IH|].
  destruct (nonspace_head s).
  - destruct (words s) as [|w ws].
    + repeat constructor; [discriminate | exact Ec].
    + inversion IH as [|? ? [Hn Hw] Hws]; subst.
      constructor; [|exact Hws].
      split; [discriminate | now constructor].
  - constructor; [|exact IH].
    split; [discriminate | now repeat constructor].
Qed.

Lemma words_nonspace_head s : nonspace_head s = true -> words s <> [].
Proof.
  destruct s as [|c s]; [discriminate|]. simpl.
  destruct (isspace c); [discriminate|]. intros _.
  destruct (nonspace_head s); [destruct (words s)|]; discriminate.
Qed.

Lemma paragraphs_cons c s :
  paragraphs (c :: s)
  = match s with
    | d :: s'' =>
        if Ascii.eqb c "010" && Ascii.eqb d "010"
        then [] :: paragraphs s''
        else push c (paragraphs s)
    | [] => push c (paragraphs s)
    end.
Proof. destruct s; reflexivity. Qed.

Lemma push_nonempty c l : push c l <> [].
Proof. destruct l; discriminate. Qed.

Lemma push_head c l p ps : push c l = p :: ps -> exists r, p = c :: r.
Proof. destruct l; intros [= <- _]; eauto. Qed.

Lemma paragraphs_nonempty s : paragraphs s <> [].
Proof.
  destruct s as [|c s]; [discriminate|]. rewrite paragraphs_cons.
  destruct s as [|d s]; [apply push_nonempty|].
  destruct (Ascii.eqb c "010" && Ascii.eqb d "010");
    [discriminate | apply push_nonempty].
Qed.

Lemma paragraphs_head s p ps :
  paragraphs s = p :: ps -> nonspace_head p = nonspace_head s.
Proof.
  destruct s as [|c s]; [now intros [= <- _]|]. rewrite paragraphs_cons.
  destruct s as [|d s].
  - intros H. apply push_head in H as [r ->]. reflexivity.
  - destruct (Ascii.eqb c "010" && Ascii.eqb d "010") eqn:E.
    + intros [= <- _]. apply andb_true_iff in E as [E _].
      apply Ascii.eqb_eq in E. now subst.
    + intros H. apply push_head in H as [r ->]. reflexivity.
Qed.

Lemma words_push c s : forall p ps rest,
  paragraphs s = p :: ps ->
  words p ++ rest = words s ->
  words (c :: p) ++ rest = words (c :: s).
Proof.
  intros p ps rest Hp Hw. pose proof (paragraphs_head s p ps Hp) as Hh.
  simpl. destruct (isspace c); [exact Hw|]. rewrite Hh.
  destruct (nonspace_head s) eqn:En.
  - apply words_nonspace_head in Hh.
    destruct (words p) as [|w ws]; [congruence|].
    rewrite <- Hw. reflexivity.
  - rewrite <- Hw. reflexivity.
Qed.

(** The words of the paragraphs, in order, are the words of the text. *)
Lemma paragraphs_words_bounded n : forall s,
  (length s <= n)%nat -> concat (map words (paragraphs s)) = words s.
Proof.
  induction n as [|n IH]; intros s Hl.
  - destruct s; [reflexivity | simpl in Hl; lia].
  - destruct s as [|c s]; [reflexivity|].
    assert (Hpush : concat (map words (push c (paragraphs s)))
                    = words (c :: s)).
    { destruct (paragraphs s) as [|p ps] eqn:Hp;
        [now apply paragraphs_nonempty in Hp|].
      cbn [push map concat].
      apply (words_push c s p ps); [exact Hp|].
      rewrite <- (IH s) by (simpl in Hl; lia). now rewrite Hp. }
    rewrite paragraphs_cons.
    destruct s as [|d s]; [exact Hpush|].
    destruct (Ascii.eqb c "010" && Ascii.eqb d "010") eqn:E; [|exact Hpush].
    apply andb_true_iff in E as [E1 E2].
    apply Ascii.eqb_eq in E1, E2. subst. cbn [map concat].
    rewrite IH by (simpl in Hl; lia). reflexivity.
Qed.

Lemma paragraphs_words s : concat (map words (paragraphs s)) = words s.
Proof. now apply (paragraphs_words_bounded (length s)). Qed.

Lemma range_from_bounds fuel : forall i n step,
  0 <= i -> Forall (fun j => 0 <= j < n) (range_from fuel i n step) \/ step <= 0.
Proof.
  induction fuel as [|fuel IH]; intros i n step Hi; simpl;
    [left; constructor|].
  destruct (Z.le_gt_cases step 0) as [Hs|Hs]; [now right|]. left.
  destruct (i <? n) eqn:E; [|constructor].
  constructor; [lia|].
  destruct (IH (i + step) n step ltac:(lia)) as [H|H]; [exact H | lia].
Qed.

Lemma range_from_windows (ws : list str) m fuel : forall i,
  0 < m -> 0 <= i ->
  Z.of_nat (length ws) - i <= Z.of_nat fuel ->
  concat (map (fun j => window ws j m)
              (range_from fuel i (Z.of_nat (length ws)) m))
  = drop (Z.to_nat i) ws.
Proof.
  induction fuel as [|fuel IH]; intros i Hm Hi Hf; simpl.
  - rewrite drop_ge by lia. reflexivity.
  - destruct (i <? Z.of_nat (length ws)) eqn:E.
    + cbn [map concat]. rewrite IH by lia. unfold window.
      replace (Z.to_nat (i + m)) with (Z.to_nat i + Z.to_nat m)%nat by lia.
      rewrite <- drop_drop. apply take_drop.
    + rewrite drop_ge by lia. reflexivity.
Qed.

Lemma window_words (ws : list str) i m :
  Forall is_word ws ->
  words (Ingestor.join (of_string " ") (window ws i m)) = window ws i m.
Proof.
  intros H. apply words_join. unfold window.
  now apply Forall_take, Forall_drop.
Qed.

Lemma window_length (ws : list str) i m :
  0 < m -> 0 <= i < Z.of_nat (length ws) ->
  (1 <= length (window ws i m))%nat /\
  Z.of_nat (length (window ws i m)) <= m.
Proof.
  intros Hm Hi. unfold window. rewrite length_take, length_drop. lia.
Qed.

Lemma paragraph_chunks_spec m para :
  0 < m ->
  exists cs,
    paragraph_chunks m para = Ok cs /\
    concat (map words cs) = words para /\
    Forall (chunk_ok m) cs.
Proof.
  intros Hm. unfold paragraph_chunks, range.
  replace (m =? 0) with false by lia. replace (m <? 0) with false by lia.
  rewrite Nat2Z.id. eexists. split; [reflexivity|].
  pose proof (words_are_words para) as Hw.
  set (ws := words para) in *.
  assert (Hb : Forall (fun j => 0 <= j < Z.of_nat (length ws))
                 (range_from (length ws) 0 (Z.of_nat (length ws)) m)).
  { destruct (range_from_bounds (length ws) 0 (Z.of_nat (length ws)) m)
      as [H|H]; [lia | exact H | lia]. }
  split.
  - rewrite map_map.
    rewrite (map_ext _ (fun j => window ws j m))
      by (intros j; now apply window_words).
    rewrite range_from_windows by lia. reflexivity.
  - apply Forall_forall. intros c Hc.
    apply elem_of_map_inv in Hc as (j & -> & Hj).
    rewrite Forall_forall in Hb. specialize (Hb j Hj).
    unfold chunk_ok. rewrite window_words by exact Hw.
    now apply window_length.
Qed.

Lemma chunk_paragraphs_spec m paras : forall chunks,
  0 < m ->
  exists r,
    chunk_paragraphs m paras chunks = Ok r /\
    concat (map words r)
      = concat (map words chunks) ++ concat (map words paras) /\
    (Forall (chunk_ok m) chunks -> Forall (chunk_ok m) r).
Proof.
  induction paras as [|p paras IH]; intros chunks Hm; simpl.
  - exists chunks. rewrite app_nil_r. auto.
  - destruct (paragraph_chunks_spec m p Hm) as (cs & -> & Hw & Hok).
    destruct (IH (chunks ++ cs) Hm) as (r & -> & Hr & Hall).
    exists r. split; [reflexivity|]. split.
    + rewrite Hr, map_app, concat_app, Hw. now rewrite app_assoc.
    + intros H. apply Hall, Forall_app. auto.
Qed.

(** X18. With a positive [max_tokens], [split_text_to_chunks] returns,
    and no word is lost, added or moved: the words of the chunks, in
    order, are the words of the text. Every chunk holds at least one
    word and at most [max_tokens]. *)
Theorem chunker_keeps_every_word text max_tokens :
  0 < max_tokens ->
  exists chunks,
    split_text_to_chunks text max_tokens = Ok chunks /\
    concat (map words chunks) = words text /\
    Forall (fun c => (1 <= length (words c))%nat /\
                     Z.of_nat (length (words c)) <= max_tokens) chunks.
Proof.
  intros Hm. unfold split_text_to_chunks.
  destruct (chunk_paragraphs_spec max_tokens (paragraphs text) [] Hm)
    as (r & Hr & Hw & Hok).
  exists r. split; [exact Hr|]. split.
  - rewrite Hw. simpl. apply paragraphs_words.
  - apply Hok. constructor.
Qed.

Lemma chunk_paragraphs_negative m paras :
  m < 0 -> chunk_paragraphs m paras [] = Ok [].
Proof.
  intros Hm. induction paras as [|p paras IH]; simpl; [reflexivity|].
  unfold paragraph_chunks, range.
  replace (m =? 0) with false by lia. replace (m <? 0) with true by lia.
  exact IH.
Qed.

(** X19. A [max_tokens] that is not positive: with zero the call raises
    [ValueError] on every text, the empty one included; with a negative
    value it returns no chunk at all, whatever the text. *)
Theorem chunker_nonpositive_budget text max_tokens :
  max_tokens <= 0 ->
  split_text_to_chunks text max_tokens
  = if max_tokens =? 0 then Raise ValueError else Ok [].
Proof.
  intros Hm. unfold split_text_to_chunks.
  destruct (max_tokens =? 0) eqn:E.
  - destruct (paragraphs text) as [|p ps] eqn:Hp;
      [now apply paragraphs_nonempty in Hp|].
    simpl. unfold paragraph_chunks, range. now rewrite E.
  - apply chunk_paragraphs_negative. lia.
Qed.

End ChunkerFacts.

Lemma chunker_keeps_every_word_witness :
  exists chunks,
    Chunker.split_text_to_chunks Inputs.lorem 4 = Ok chunks /\
    concat (map Chunker.words chunks) = Chunker.words Inputs.lorem.
Proof.
  destruct (chunker_keeps_every_word Inputs.lorem 4) as (cs & H1 & H2 & _).
  - vm_compute; reflexivity.
  - exists cs. split; assumption.
Defined.

Lemma chunker_nonpositive_budget_witness :
  Chunker.split_text_to_chunks [] 0 = Raise ValueError /\
  Chunker.split_text_to_chunks Inputs.lorem (-1) = Ok [].
Proof.
  split.
  - apply (chunker_nonpositive_budget [] 0). vm_compute; congruence.
  - apply (chunker_nonpositive_budget Inputs.lorem (-1)).
    vm_compute; congruence.
Defined.

(** ** The indexing route: nothing is overwritten *)

Section RoutesFacts.

Import Routes.

Lemma elem_of_map_fwd {A B} (f : A -> B) (l : list A) (x : A) :
  x ∈ l -> f x ∈ map f l.
Proof.
  induction 1 as [x l|x y l _ IH]; simpl; [left | right; exact IH].
Qed.

Lemma names_lookup (m : gmap string Collection) (k : string) :
  k ∈ map fst (map_to_list m) <-> is_Some (m !! k).
Proof.
  split.
  - intros H. apply elem_of_map_inv in H as ([k' v] & -> & H).
    apply elem_of_map_to_list in H. eauto.
  - intros [v H]. apply elem_of_map_to_list in H.
    now apply (elem_of_map_fwd fst) in H.
Qed.

Lemma create_collection_spec c :
  reachable c = true ->
  exists c',
    create_collection c = (Ok tt, c') /\
    collections c' !! COLLECTION
      = Some (default (mkCollection VECTOR_SIZE ∅)
                      (collections c !! COLLECTION)) /\
    reachable c' = true.
Proof.
  intros Hr. unfold create_collection, get_collections, recreate_collection.
  rewrite Hr. cbn [negb].
  destruct (collections c !! COLLECTION) as [col|] eqn:E.
  - rewrite bool_decide_eq_true_2 by (apply names_lookup; eauto).
    exists c. rewrite E. auto.
  - rewrite bool_decide_eq_false_2
      by (rewrite names_lookup, E; now intros [? ?]).
    eexists. split; [reflexivity|].
    cbn [with_collections collections reachable].
    rewrite lookup_insert_eq. auto.
Qed.

(** X20. On a reachable client [create_collection] is a create-if-absent
    that can be repeated: an existing ["doc_chunks"] collection is left
    as it is, with its points; a missing one is created empty with
    vectors of size 384; the other collections are untouched; and a
    second call changes nothing. *)
Theorem create_collection_keeps_existing c :
  reachable c = true ->
  exists c',
    create_collection c = (Ok tt, c') /\
    collections c' !! COLLECTION
      = Some (default (mkCollection VECTOR_SIZE ∅)
                      (collections c !! COLLECTION)) /\
    (forall other, other <> COLLECTION ->
       collections c' !! other = collections c !! other) /\
    create_collection c' = (Ok tt, c').
Proof.
  intros Hr. unfold create_collection, get_collections, recreate_collection.
  rewrite Hr. cbn [negb].
  destruct (collections c !! COLLECTION) as [col|] eqn:E.
  - assert (Hin : COLLECTION ∈ map fst (map_to_list (collections c)))
      by (apply names_lookup; eauto).
    rewrite (bool_decide_eq_true_2 _ Hin).
    exists c. rewrite Hr. cbn [negb].
    rewrite (bool_decide_eq_true_2 _ Hin). rewrite E. auto.
  - assert (Hout : COLLECTION ∉ map fst (map_to_list (collections c))).
    { rewrite names_lookup, E. now intros [? ?]. }
    rewrite (bool_decide_eq_false_2 _ Hout).
    eexists. split; [reflexivity|]. cbn [with_collections collections reachable].
    rewrite lookup_insert_eq. split; [reflexivity|]. split.
    + intros other Hne. now rewrite lookup_insert_ne by congruence.
    + rewrite Hr. cbn [negb].
      rewrite bool_decide_eq_true_2; [reflexivity|].
      apply names_lookup. rewrite lookup_insert_eq. eauto.
Qed.

Lemma embed_chunks_spec {A} env (chunks : list A) : forall w,
  exists vs w',
    embed_chunks env chunks w = (Ok vs, w') /\
    length vs = length chunks /\
    Forall (fun v => length v = EMBED_DIM) vs /\
    rng_pos w' = (rng_pos w + EMBED_DIM * length chunks)%nat.
Proof.
  unfold embed_chunks.
  induction chunks as [|c chunks IH]; intros w; cbn [for_each].
  - exists [], w. repeat split; [constructor | cbn [length]; lia].
  - unfold bind at 1. unfold random_rand at 1. unfold bind at 1.
    destruct (IH (mkWorld (api_calls w) (rng_pos w + EMBED_DIM)))
      as (vs & w' & -> & Hl & Hall & Hp).
    eexists _, w'. split; [reflexivity|]. cbn [length].
    split; [congruence|].
    split; [|cbn [rng_pos] in Hp; lia].
    constructor; [|exact Hall]. now rewrite length_map, length_seq.
Qed.

Lemma index_points_lookup uuid4 first chunks
    (embeddings : list Embedder.vector) doc_id (i : nat) :
  index_points uuid4 first chunks embeddings doc_id !! i =
  match chunks !! i, embeddings !! i with
  | Some c, Some v =>
      Some (mkPoint (uuid4 (first + i)%nat) v
              (index_payload doc_id (Z.of_nat i) c))
  | _, _ => None
  end.
Proof.
  unfold index_points. rewrite lookup_map, enumerate_lookup.
  rewrite lookup_zip_with.
  destruct (chunks !! i), (embeddings !! i); simpl; try reflexivity.
  now rewrite Nat2Z.id.
Qed.

Lemma foldl_put_other pts : forall m k,
  (forall i p, pts !! i = Some p -> id p <> k) ->
  foldl put m pts !! k = m !! k.
Proof.
  induction pts as [|q pts IH] using rev_ind; intros m k Hk; [reflexivity|].
  rewrite foldl_snoc. unfold put at 1.
  rewrite lookup_insert_ne.
  - apply IH. intros i p Hi. apply (Hk i). now apply lookup_app_l_Some.
  - apply (Hk (length pts)). rewrite lookup_app_r by lia.
    now replace (length pts - length pts)%nat with 0%nat by lia.
Qed.

Lemma foldl_put_distinct pts : forall m (i : nat) p,
  (forall j q, pts !! j = Some q -> id q = id p -> j = i) ->
  pts !! i = Some p ->
  foldl put m pts !! id p = Some p.
Proof.
  induction pts as [|q pts IH] using rev_ind; intros m i p Hd Hi;
    [discriminate|].
  rewrite foldl_snoc. unfold put at 1.
  assert (Hq : (pts ++ [q]) !! length pts = Some q).
  { rewrite lookup_app_r by lia.
    now replace (length pts - length pts)%nat with 0%nat by lia. }
  destruct (decide (i = length pts)) as [->|Hne].
  - rewrite Hq in Hi. injection Hi as ->. apply lookup_insert_eq.
  - assert (Hlt : (i < length pts)%nat).
    { apply lookup_lt_Some in Hi. rewrite length_app in Hi. simpl in Hi.
      lia. }
    rewrite lookup_insert_ne.
    + apply (IH m i p).
      * intros j r Hj. apply Hd. now apply lookup_app_l_Some.
      * now rewrite lookup_app_l in Hi.
    + intros Heq. apply Hne. symmetry. now apply (Hd (length pts) q).
Qed.

(** X21. On a reachable client whose ["doc_chunks"] collection, if it
    exists, has size 384, and with identifiers from [uuid4] that are new,
    [add_document] stores every chunk of the text: it reports their
    number, each chunk sits under its own identifier with the document
    id, its text and its index, and every point stored before is still
    there. *)
Theorem add_document_indexes_every_chunk uuid4 env text doc_id st chunks :
  reachable (client st) = true ->
  (forall col, collections (client st) !! COLLECTION = Some col ->
               size col = VECTOR_SIZE) ->
  Chunker.split_text_to_chunks text 512 = Ok chunks ->
  fresh_ids uuid4 (drawn st) (length chunks)
    (points (default (mkCollection VECTOR_SIZE ∅)
                     (collections (client st) !! COLLECTION))) ->
  exists st' col',
    add_document uuid4 env text doc_id st
      = (Ok (Z.of_nat (length chunks)), st') /\
    collections (client st') !! COLLECTION = Some col' /\
    drawn st' = (drawn st + length chunks)%nat /\
    (forall (i : nat) c, chunks !! i = Some c ->
       exists v,
         length v = 384%nat /\
         points col' !! uuid4 (drawn st + i)%nat
         = Some (mkPoint (uuid4 (drawn st + i)%nat) v
                   (index_payload doc_id (Z.of_nat i)
                      (string_of_list_ascii c)))) /\
    (forall k p,
       points (default (mkCollection VECTOR_SIZE ∅)
                       (collections (client st) !! COLLECTION)) !! k = Some p ->
       points col' !! k = Some p).
Proof.
  intros Hr Hsize Hch [Hinj Hfresh]. unfold str in *.
  set (col0 := default (mkCollection VECTOR_SIZE ∅)
                       (collections (client st) !! COLLECTION)) in *.
  set (texts := map string_of_list_ascii chunks).
  assert (Htl : length texts = length chunks) by apply length_map.
  destruct (embed_chunks_spec env texts (world st))
    as (vs & w' & He & Hl & Hall & _).
  destruct (create_collection_spec (client st) Hr)
    as (c1 & Hcc & Hc1 & Hr1).
  fold col0 in Hc1.
  assert (Hs0 : size col0 = 384%nat).
  { unfold col0. destruct (collections (client st) !! COLLECTION) as [col|]
      eqn:E; [now apply Hsize | reflexivity]. }
  set (pts := index_points uuid4 (drawn st) texts vs doc_id).
  assert (Hpl : length pts = length chunks).
  { unfold pts, index_points, enumerate.
    rewrite length_map, length_zip_with, length_map, length_seq,
      !length_zip_with. lia. }
  assert (Hps : forall (i : nat) p, pts !! i = Some p ->
            exists c v, chunks !! i = Some c /\ vs !! i = Some v /\
              p = mkPoint (uuid4 (drawn st + i)%nat) v
                    (index_payload doc_id (Z.of_nat i)
                       (string_of_list_ascii c))).
  { intros i p. unfold pts. rewrite index_points_lookup.
    unfold texts. rewrite lookup_map.
    match goal with
    | |- context [fmap _ ?x] => destruct x as [c|] eqn:Ec
    end; simpl; [|discriminate].
    destruct (vs !! i) as [v|]; simpl; [|discriminate].
    intros [= <-]. exists c, v. repeat split; auto. }
  set (col' := mkCollection (size col0) (foldl put (points col0) pts)).
  exists (mkState (with_collections c1 (<[COLLECTION := col']> (collections c1)))
                  w' (drawn st + length pts)), col'.
  split; [|split; [|split; [|split]]].
  - unfold add_document. rewrite Hch. fold texts. rewrite He, Hcc.
    unfold upsert_chunks. cbn [client world drawn]. fold pts.
    unfold upsert. rewrite Hr1. cbn [negb].
    change "doc_chunks"%string with COLLECTION. rewrite Hc1.
    rewrite upsert_points_all.
    + fold col'. now rewrite Htl.
    + apply Forall_forall. intros p Hp.
      apply list_elem_of_lookup in Hp as [i Hp].
      destruct (Hps i p Hp) as (c & v & _ & Hv & ->). simpl.
      rewrite Hs0. eapply Forall_lookup in Hall; eauto.
  - cbn [client with_collections collections]. apply lookup_insert_eq.
  - cbn [drawn]. now rewrite Hpl.
  - intros i c Hc.
    assert (Hv : exists v, vs !! i = Some v).
    { destruct (vs !! i) as [v|] eqn:Ev; [eauto|].
      apply lookup_ge_None in Ev. apply lookup_lt_Some in Hc.
      unfold str in *. lia. }
    destruct Hv as [v Hv]. exists v. split.
    { eapply Forall_lookup in Hall; eauto. }
    set (p := mkPoint (uuid4 (drawn st + i)%nat) v
                (index_payload doc_id (Z.of_nat i) (string_of_list_ascii c))).
    assert (Hp : pts !! i = Some p).
    { unfold pts. rewrite index_points_lookup. unfold texts.
      rewrite lookup_map. unfold str in *. rewrite Hc.
      simpl. now rewrite Hv. }
    change (uuid4 (drawn st + i)%nat) with (id p) at 1.
    cbn [col' points]. apply (foldl_put_distinct pts (points col0) i p);
      [|exact Hp].
    intros j q Hj Hid.
    destruct (Hps j q Hj) as (c' & v' & Hc' & _ & ->). cbn [id p] in Hid.
    apply lookup_lt_Some in Hc, Hc'.
    apply (Hinj j i); [lia | lia | exact Hid].
  - intros k p Hk. cbn [col' points]. rewrite foldl_put_other; [exact Hk|].
    intros i q Hq Hid.
    destruct (Hps i q Hq) as (c' & v' & Hc' & _ & ->). cbn [id] in Hid.
    apply lookup_lt_Some in Hc'.
    rewrite <- Hid, Hfresh in Hk by lia. discriminate.
Qed.

End RoutesFacts.

Lemma create_collection_keeps_existing_witness :
  exists c',
    Routes.create_collection Inputs.memory_client = (Ok tt, c') /\
    Routes.create_collection c' = (Ok tt, c').
Proof.
  destruct (create_collection_keeps_existing Inputs.memory_client eq_refl)
    as (c' & H1 & _ & _ & H2).
  exists c'. split; assumption.
Defined.

Lemma add_document_indexes_every_chunk_witness :
  exists st',
    Routes.add_document Inputs.sample_uuid4 Inputs.env_plain Inputs.lorem
      "doc1" (Routes.mkState Inputs.memory_client Inputs.w0 0)
    = (Ok 1, st').
Proof.
  destruct (add_document_indexes_every_chunk Inputs.sample_uuid4
              Inputs.env_plain Inputs.lorem "doc1"
              (Routes.mkState Inputs.memory_client Inputs.w0 0)
              [strip Inputs.lorem])
    as (st' & _ & H & _).
  - reflexivity.
  - intros col H. vm_compute in H. discriminate H.
  - vm_compute; reflexivity.
  - split.
    + intros i j _ _ H. unfold Inputs.sample_uuid4 in H. lia.
    + intros i _. apply lookup_empty.
  - exists st'. exact H.
Defined.
